(** * Spacecraft reliability: Monte Carlo and analytical estimators

    Shallow embedding of [src/reliability.py]:
    - [monte_carlo_reliability failure_probs n_samples] (lines 12-56),
    - [analytical_reliability failure_probs] (lines 59-87).

    Python floats are modelled through a small numeric interface [Num];
    the code is written once, generically, and used at [Float64]: IEEE-754
    binary64 (Rocq's primitive floats), which is what CPython's [float] is;
    [int / int] is CPython's correctly rounded true division, raising
    [ZeroDivisionError] on a zero divisor and [OverflowError] when the
    rounded quotient is infinite.

    Facts about the values computed (bounds, monotonicity) go through the
    IEEE-754 model of [SpecFloat] that specifies the primitive floats: a
    binary64 result is the exact result rounded to nearest, ties to even,
    which [rnd_rel] below states over the rationals.

    The module-level generator [np.random.random()] is modelled as an explicit
    stream of draws [rng : nat -> F] together with the position of the next
    draw, which the code threads as state. *)

From Stdlib Require Import ZArith List Bool Lia QArith Qabs Qround Qpower.
From Stdlib Require Import Floats Lqa.
Import ListNotations.
Open Scope nat_scope.

(** ** Python results: a value, or a raised exception. *)

Inductive exn : Type :=
| ZeroDivisionError
| OverflowError.

Inductive result (A : Type) : Type :=
| Ok (a : A)
| Raise (e : exn).
Arguments Ok {A} a.
Arguments Raise {A} e.

(** ** The numeric operations the code uses. *)

Class Num (F : Type) := {
  num_zero : F;                       (* [0.0] *)
  num_one : F;                        (* [1.0] *)
  num_sub : F -> F -> F;              (* [x - y] *)
  num_mul : F -> F -> F;              (* [x * y], [x *= y] *)
  num_ltb : F -> F -> bool;           (* [x < y] *)
  num_int_div : Z -> Z -> result F    (* [int / int] for a non-zero divisor *)
}.

Section Reliability.
Context {F : Type} `{Num F}.

(** Python's [a / b] on two ints. *)
Definition true_div (a b : Z) : result F :=
  if Z.eqb b 0 then Raise ZeroDivisionError else num_int_div a b.

(** *** [analytical_reliability] (lines 80-87)
<<
  reliability = 1.0
  for fail_prob in failure_probs:
      prob_works = 1.0 - fail_prob
      reliability *= prob_works
  return reliability
>> *)
Fixpoint analytical_loop (failure_probs : list F) (reliability : F) : F :=
  match failure_probs with
  | [] => reliability
  | fail_prob :: rest =>
      let prob_works := num_sub num_one fail_prob in
      analytical_loop rest (num_mul reliability prob_works)
  end.

Definition analytical_reliability (failure_probs : list F) : F :=
  analytical_loop failure_probs num_one.

(** *** [monte_carlo_reliability] (lines 33-56)

    [rng k] is the value [np.random.random()] returns at its [k]-th call;
    the functions below take the position of the next draw and return it
    updated. *)
Variable rng : nat -> F.

(** The inner loop (lines 42-49): [(mission_success, next position)].
<<
  for fail_prob in failure_probs:
      random_draw = np.random.random()
      if random_draw < fail_prob:
          mission_success = False
          break
>> *)
Fixpoint check_subsystems (failure_probs : list F) (pos : nat) : bool * nat :=
  match failure_probs with
  | [] => (true, pos)
  | fail_prob :: rest =>
      let random_draw := rng pos in
      if num_ltb random_draw fail_prob then (false, S pos)
      else check_subsystems rest (S pos)
  end.

(** The outer loop (lines 37-53), run [i] more times. *)
Fixpoint run_trials (failure_probs : list F) (i : nat) (successes : Z) (pos : nat)
  : Z * nat :=
  match i with
  | O => (successes, pos)
  | S i' =>
      let '(mission_success, pos') := check_subsystems failure_probs pos in
      run_trials failure_probs i'
        (if mission_success then (successes + 1)%Z else successes) pos'
  end.

(** [range(n_samples)] is empty when [n_samples <= 0]. *)
Definition monte_carlo_reliability (failure_probs : list F) (n_samples : Z)
  (pos : nat) : result F * nat :=
  let '(successes, pos') := run_trials failure_probs (Z.to_nat n_samples) 0 pos in
  (true_div successes n_samples, pos').

End Reliability.

(** ** IEEE-754 binary64. *)
Module Float64.

(** CPython's [int / int]: the quotient rounded once, to nearest even
    ([long_true_divide]); [0 / b] is a zero carrying the sign of [b]. *)
Definition int_truediv (a b : Z) : result float :=
  let s := xorb (Z.ltb a 0) (Z.ltb b 0) in
  match Z.abs a with
  | Z0 => Ok (if s then (-0)%float else 0%float)
  | ma =>
      let '(q, e, l) := SFdiv_core_binary prec emax ma 0 (Z.abs b) 0 in
      match binary_round_aux prec emax s q e l with
      | S754_infinity _ => Raise OverflowError
      | r => Ok (SF2Prim r)
      end
  end.

(** [0 <= x <= 1]. *)
Definition in_unit (x : float) : bool := (0 <=? x)%float && (x <=? 1)%float.

#[global] Instance num_float : Num float := {
  num_zero := 0%float;
  num_one := 1%float;
  num_sub := PrimFloat.sub;
  num_mul := PrimFloat.mul;
  num_ltb := PrimFloat.ltb;
  num_int_div := int_truediv
}.

End Float64.

(** ** The spec's descriptions, written from its words, to be compared with
    the code above. *)
Section SpecSide.
Context {F : Type} `{Num F}.

(** The product of a list of factors, as Python's [math.prod] evaluates it:
    the empty product [1.0], then multiplied left to right. *)
Definition prod (xs : list F) : F := fold_left num_mul xs num_one.

(** The probability that subsystem [p] works: [1 - p]. *)
Definition works (p : F) : F := num_sub num_one p.

Variable rng : nat -> F.

(** One trial as the spec describes it: subsystem [i] (in the given order)
    is tested against the [i]-th draw of the trial; the trial fails at the
    first subsystem whose draw is strictly below its failure probability,
    consuming the draws up to and including that one, and succeeds when
    there is none, having consumed one draw per subsystem. *)
Definition trial_spec (failure_probs : list F) (pos : nat) : bool * nat :=
  match find (fun i => num_ltb (rng (pos + i)) (nth i failure_probs num_zero))
             (seq 0 (length failure_probs)) with
  | Some i => (false, pos + i + 1)
  | None => (true, pos + length failure_probs)
  end.

(** [n] trials one after the other: (number of successes, next position). *)
Fixpoint trials_spec (failure_probs : list F) (n : nat) (pos : nat) : nat * nat :=
  match n with
  | O => (O, pos)
  | S n' =>
      let '(ok, pos') := trial_spec failure_probs pos in
      let '(successes, pos'') := trials_spec failure_probs n' pos' in
      ((if ok then 1 else 0) + successes, pos'')
  end.

End SpecSide.

(** A call [analytical_reliability(failure_probs)] run in the module's state,
    whose only mutable part is the generator position: it returns the value
    and the state it leaves behind. *)
Definition analytical_reliability_call {F} `{Num F} (failure_probs : list F)
  (pos : nat) : F * nat :=
  (analytical_reliability failure_probs, pos).

(** ** The IEEE-754 rounding model, over the rationals.

    [pow2 e] is [2^e]; [rne_Q y] rounds [y] to the nearest integer, ties to
    even; [describes y mrs] says that the shift record [mrs] of [SpecFloat]
    (a mantissa with its round and sticky bits) represents [y]; [sval] is
    the value of a float and [rnd_rel X v] says that [v] is [X >= 0] rounded
    to binary64. *)

Definition pow2 (e : Z) : Q := Qpower (2#1) e.

Definition rne_Q (y : Q) : Z :=
  let q := Qfloor y in
  match Qcompare (y - inject_Z q) (1#2) with
  | Lt => q
  | Gt => (q + 1)%Z
  | Eq => if Z.even q then q else (q + 1)%Z
  end.

Definition describes (y : Q) (mrs : shr_record) : Prop :=
  let q := inject_Z (shr_m mrs) in
  (0 <= shr_m mrs)%Z /\ (q <= y /\ y < q + 1)%Q /\
  (shr_r mrs = true <-> (q + (1#2) <= y)%Q) /\
  (shr_s mrs = true <-> ~ (y == q)%Q /\ ~ (y == q + (1#2))%Q).

Definition loc_char (r s : bool) (q y : Q) : Prop :=
  match r, s with
  | false, false => (y == q)%Q
  | false, true => (q < y /\ y < q + (1#2))%Q
  | true, false => (y == q + (1#2))%Q
  | true, true => (q + (1#2) < y /\ y < q + 1)%Q
  end.

Ltac qcmp H :=
  first [ apply (proj2 (Qeq_alt _ _)) in H | apply (proj2 (Qlt_alt _ _)) in H
        | apply (proj2 (Qgt_alt _ _)) in H ].

Section RoundingModel.
Local Open Scope Q_scope.

Definition b64_fexp (e : Z) : Z := Z.max (e - 53) (-1074).

Definition sval (x : spec_float) : Q :=
  match x with
  | S754_finite s m e =>
      if s then - (inject_Z (Zpos m) * pow2 e) else inject_Z (Zpos m) * pow2 e
  | _ => 0
  end.

Definition fnonneg (x : spec_float) : bool :=
  match x with
  | S754_zero _ => true
  | S754_finite false _ _ => true
  | _ => false
  end.

Definition rnd_rel (X v : Q) : Prop :=
  (X == 0 /\ v == 0) \/
  exists M, pow2 (M - 1) <= X /\ X < pow2 M /\
    v == inject_Z (rne_Q (X * pow2 (- b64_fexp M))) * pow2 (b64_fexp M).

Definition one_sf : spec_float := S754_finite false 4503599627370496 (-52).

End RoundingModel.

(** ** Generic facts about the code. *)

Section Generic.
Context {F : Type} `{Num F}.

Lemma analytical_loop_fold (ps : list F) (r : F) :
  analytical_loop ps r = fold_left num_mul (map works ps) r.
Proof.
  revert r; induction ps as [|p ps IH]; intros r; simpl; [reflexivity|].
  apply IH.
Qed.

Lemma analytical_reliability_prod (ps : list F) :
  analytical_reliability ps = prod (map works ps).
Proof. apply analytical_loop_fold. Qed.

Lemma analytical_loop_app (l1 l2 : list F) (r : F) :
  analytical_loop (l1 ++ l2) r = analytical_loop l2 (analytical_loop l1 r).
Proof.
  revert r; induction l1 as [|p l1 IH]; intros r; simpl; [reflexivity|].
  apply IH.
Qed.

Variable rng : nat -> F.

Lemma find_ext {A} (f g : A -> bool) (l : list A) :
  (forall x, f x = g x) -> find f l = find g l.
Proof.
  intros Hfg; induction l as [|x l IH]; simpl; [reflexivity|].
  rewrite Hfg, IH; reflexivity.
Qed.

Lemma find_map_S (f : nat -> bool) (l : list nat) :
  find f (map S l) = option_map S (find (fun i => f (S i)) l).
Proof.
  induction l as [|x l IH]; simpl; [reflexivity|].
  destruct (f (S x)); [reflexivity|exact IH].
Qed.

Lemma check_subsystems_spec (ps : list F) (pos : nat) :
  check_subsystems rng ps pos = trial_spec rng ps pos.
Proof.
  revert pos; induction ps as [|p ps IH]; intros pos.
  - unfold trial_spec; simpl. f_equal; lia.
  - unfold trial_spec; simpl length.
    simpl seq; rewrite <- seq_shift; simpl find.
    rewrite Nat.add_0_r; simpl nth.
    simpl check_subsystems.
    destruct (num_ltb (rng pos) p) eqn:Hd; [f_equal; lia|].
    rewrite find_map_S.
    rewrite IH; unfold trial_spec.
    rewrite (find_ext (fun i => num_ltb (rng (pos + S i)) (nth i ps num_zero))
                      (fun i => num_ltb (rng (S pos + i)) (nth i ps num_zero)))
      by (intros i; do 2 f_equal; lia).
    destruct (find _ _); simpl; f_equal; lia.
Qed.

End Generic.

Section GenericTrials.
Context {F : Type} `{Num F}.
Variable rng : nat -> F.

Lemma run_trials_spec (ps : list F) (i : nat) (s : Z) (pos : nat) :
  run_trials rng ps i s pos =
  ((s + Z.of_nat (fst (trials_spec rng ps i pos)))%Z, snd (trials_spec rng ps i pos)).
Proof.
  revert s pos; induction i as [|i IH]; intros s pos; simpl.
  - f_equal; lia.
  - rewrite check_subsystems_spec.
    destruct (trial_spec rng ps pos) as [ok pos'].
    rewrite IH.
    destruct (trials_spec rng ps i pos') as [k pos'']; simpl.
    destruct ok; f_equal; lia.
Qed.

Lemma trials_spec_le (ps : list F) (i pos : nat) :
  fst (trials_spec rng ps i pos) <= i.
Proof.
  revert pos; induction i as [|i IH]; intros pos; simpl; [lia|].
  destruct (trial_spec rng ps pos) as [ok pos'].
  specialize (IH pos').
  destruct (trials_spec rng ps i pos') as [k pos'']; simpl in *.
  destruct ok; lia.
Qed.

Lemma trials_spec_nil (i pos : nat) :
  trials_spec rng [] i pos = (i, pos).
Proof.
  revert pos; induction i as [|i IH]; intros pos; simpl; [reflexivity|].
  unfold trial_spec; simpl. rewrite Nat.add_0_r, IH. reflexivity.
Qed.

Lemma monte_carlo_reliability_spec (ps : list F) (n : Z) (pos : nat) :
  monte_carlo_reliability rng ps n pos =
  (true_div (Z.of_nat (fst (trials_spec rng ps (Z.to_nat n) pos))) n,
   snd (trials_spec rng ps (Z.to_nat n) pos)).
Proof.
  unfold monte_carlo_reliability. rewrite run_trials_spec. reflexivity.
Qed.

Lemma monte_carlo_reliability_nonpos (ps : list F) (n : Z) (pos : nat) :
  (n <= 0)%Z ->
  monte_carlo_reliability rng ps n pos = (true_div 0 n, pos).
Proof.
  intros Hn. rewrite monte_carlo_reliability_spec.
  replace (Z.to_nat n) with 0 by lia. reflexivity.
Qed.

End GenericTrials.

(** ** Facts about binary64 division. *)

Lemma SFdiv_core_binary_diag (m : positive) :
  SFdiv_core_binary prec emax (Zpos m) 0 (Zpos m) 0 = ((2 ^ 53)%Z, (-53)%Z, loc_Exact).
Proof.
  unfold SFdiv_core_binary.
  rewrite Z.sub_diag, Z.add_0_r, Z.sub_diag.
  change (Z.min (fexp prec emax 0) 0) with (-53)%Z.
  change (0 - -53)%Z with 53%Z.
  cbv iota beta.
  assert (Hq : Z.div_eucl (Zpos m * 2 ^ 53) (Zpos m) = ((2 ^ 53)%Z, 0%Z)).
  { pose proof (Z.div_mul (2 ^ 53) (Zpos m) ltac:(lia)) as Hd.
    pose proof (Z.mod_mul (2 ^ 53) (Zpos m) ltac:(lia)) as Hm.
    rewrite Z.mul_comm. unfold Z.div, Z.modulo in *.
    destruct (Z.div_eucl (2 ^ 53 * Zpos m) (Zpos m)); subst; reflexivity. }
  change IntDef.Z.div_eucl with Z.div_eucl; change IntDef.Z.shiftl with Z.shiftl.
  rewrite Z.shiftl_mul_pow2 by lia. rewrite Hq.
  unfold new_location, new_location_even, new_location_odd.
  destruct (Z.even (Zpos m)); reflexivity.
Qed.

(** [n / n == 1.0] for every positive int [n]. *)
Lemma int_truediv_diag (n : Z) :
  (0 < n)%Z -> Float64.int_truediv n n = Ok 1%float.
Proof.
  intros Hn. destruct n as [|m|m]; try lia.
  unfold Float64.int_truediv. simpl Z.abs; simpl Z.ltb; simpl xorb.
  cbv iota zeta. rewrite SFdiv_core_binary_diag. vm_compute. reflexivity.
Qed.

(** ** Facts about binary64 rounding. *)

Section RoundingFacts.
Local Open Scope Q_scope.

Lemma pow2_pos e : 0 < pow2 e.
Proof. apply Qpower_0_lt. reflexivity. Qed.

Lemma pow2_add a b : pow2 (a + b) == pow2 a * pow2 b.
Proof. apply Qpower_plus. discriminate. Qed.

Lemma pow2_le a b : (a <= b)%Z -> pow2 a <= pow2 b.
Proof. intros; apply Qpower_le_compat_l; [assumption | discriminate]. Qed.

Lemma pow2_lt a b : (a < b)%Z -> pow2 a < pow2 b.
Proof. intros; apply Qpower_lt_compat_l; [assumption | reflexivity]. Qed.

Lemma pow2_Z n : (0 <= n)%Z -> pow2 n == inject_Z (2 ^ n).
Proof. intros Hn. unfold pow2. rewrite Zpower_Qpower by exact Hn. reflexivity. Qed.

Lemma pow2_0 : pow2 0 == 1.
Proof. reflexivity. Qed.

Lemma pow2_inv e : pow2 (- e) * pow2 e == 1.
Proof. rewrite <- pow2_add. replace (- e + e)%Z with 0%Z by lia. reflexivity. Qed.

Lemma pow2_1 : pow2 1 == 2.
Proof. reflexivity. Qed.

Lemma inject_Z_le a b : (a <= b)%Z <-> inject_Z a <= inject_Z b.
Proof. rewrite Zle_Qle. reflexivity. Qed.

Lemma inject_Z_lt a b : (a < b)%Z <-> inject_Z a < inject_Z b.
Proof. rewrite Zlt_Qlt. reflexivity. Qed.

Lemma Qfloor_unique y (q : Z) : inject_Z q <= y -> y < inject_Z q + 1 -> Qfloor y = q.
Proof.
  intros H1 H2.
  pose proof (Qfloor_le y) as A. pose proof (Qlt_floor y) as B.
  rewrite inject_Z_plus in B.
  assert (C1 : (Qfloor y < q + 1)%Z).
  { apply inject_Z_lt. rewrite inject_Z_plus. change (inject_Z 1) with 1. lra. }
  assert (C2 : (q < Qfloor y + 1)%Z).
  { apply inject_Z_lt. rewrite inject_Z_plus. change (inject_Z 1) with 1 in *. lra. }
  lia.
Qed.

Lemma rne_Q_floor y : (Qfloor y <= rne_Q y <= Qfloor y + 1)%Z.
Proof.
  unfold rne_Q. destruct (_ ?= _); try lia. destruct Z.even; lia.
Qed.

Lemma rne_Q_int (n : Z) : rne_Q (inject_Z n) = n.
Proof.
  unfold rne_Q. rewrite Qfloor_Z.
  replace (inject_Z n - inject_Z n ?= 1 # 2) with Lt. reflexivity.
  symmetry. apply (proj1 (Qlt_alt _ _)). lra.
Qed.

Lemma rne_Q_le y (n : Z) : y <= inject_Z n -> (rne_Q y <= n)%Z.
Proof.
  intros H. pose proof (Qfloor_le y) as A.
  assert (B : (Qfloor y <= n)%Z).
  { pose proof (Qfloor_resp_le _ _ H) as C. rewrite Qfloor_Z in C. exact C. }
  unfold rne_Q. set (q := Qfloor y) in *.
  destruct (Z.eq_dec q n) as [E|E].
  - subst q. rewrite E in A |- *.
    assert (D : y - inject_Z n == 0) by lra.
    replace (y - inject_Z n ?= 1 # 2) with Lt. lia.
    symmetry. apply (proj1 (Qlt_alt _ _)). rewrite D. reflexivity.
  - destruct (_ ?= _); try lia. destruct Z.even; lia.
Qed.

Lemma rne_Q_ge y (n : Z) : inject_Z n <= y -> (n <= rne_Q y)%Z.
Proof.
  intros H. pose proof (Qfloor_resp_le _ _ H) as C. rewrite Qfloor_Z in C.
  pose proof (rne_Q_floor y). lia.
Qed.

Lemma rne_Q_mono y1 y2 : y1 <= y2 -> (rne_Q y1 <= rne_Q y2)%Z.
Proof.
  intros H. pose proof (Qfloor_resp_le _ _ H) as C.
  pose proof (rne_Q_floor y1) as R1. pose proof (rne_Q_floor y2) as R2.
  destruct (Z.eq_dec (Qfloor y1) (Qfloor y2)) as [E|E]; [|lia].
  unfold rne_Q. rewrite E.
  set (q := Qfloor y2).
  assert (F : y1 - inject_Z q <= y2 - inject_Z q) by lra.
  destruct (y1 - inject_Z q ?= 1 # 2) eqn:A1; destruct (y2 - inject_Z q ?= 1 # 2) eqn:A2;
    try lia; try (destruct Z.even; lia).
  all: qcmp A1; qcmp A2; lra.
Qed.

Lemma rne_Q_proper y1 y2 : y1 == y2 -> rne_Q y1 = rne_Q y2.
Proof. intros H. apply Z.le_antisymm; apply rne_Q_mono; lra. Qed.

Lemma describes_char y m r s :
  describes y (Build_shr_record m r s) <-> (0 <= m)%Z /\ loc_char r s (inject_Z m) y.
Proof.
  unfold describes; simpl. split.
  - intros [Hm [[H1 H2] [Hr Hs]]]. split; [exact Hm|].
    destruct r, s; simpl.
    + destruct (proj1 Hs eq_refl) as [A B]. pose proof (proj1 Hr eq_refl).
      split; [|lra]. destruct (Qlt_le_dec (inject_Z m + (1#2)) y) as [C|C]; [exact C|].
      exfalso; apply B; lra.
    + pose proof (proj1 Hr eq_refl).
      destruct (Qeq_dec y (inject_Z m + (1#2))) as [C|C]; [exact C|].
      destruct (Qeq_dec y (inject_Z m)) as [D|D]; [lra|].
      discriminate (proj2 Hs (conj D C)).
    + destruct (proj1 Hs eq_refl) as [A B].
      destruct (Qlt_le_dec y (inject_Z m + (1#2))) as [C|C].
      * split; [|exact C]. destruct (Qle_lt_or_eq _ _ H1) as [D|D]; [exact D|].
        exfalso; apply A; lra.
      * discriminate (proj2 Hr C).
    + destruct (Qlt_le_dec y (inject_Z m + (1#2))) as [C|C].
      * destruct (Qeq_dec y (inject_Z m)) as [D|D]; [exact D|].
        destruct (Qeq_dec y (inject_Z m + (1#2))) as [E|E]; [lra|].
        discriminate (proj2 Hs (conj D E)).
      * discriminate (proj2 Hr C).
  - intros [Hm Hc]. split; [exact Hm|].
    destruct r, s; simpl in Hc.
    + destruct Hc as [A B]. split; [lra|]. split; [split; intros; lra|].
      split; [intros _; split; intro; lra | reflexivity].
    + split; [lra|]. split; [split; intros; lra|].
      split; [discriminate | intros [_ C]; exfalso; apply C; exact Hc].
    + destruct Hc as [A B]. split; [lra|]. split; [split; [discriminate | intros; lra]|].
      split; [intros _; split; intro; lra | reflexivity].
    + split; [lra|]. split; [split; [discriminate | intros; lra]|].
      split; [discriminate | intros [C _]; exfalso; apply C; exact Hc].
Qed.

Lemma describes_proper y1 y2 mrs : y1 == y2 -> describes y1 mrs -> describes y2 mrs.
Proof.
  intros E. destruct mrs as [m r s]. rewrite !describes_char.
  intros [Hm Hc]. split; [exact Hm|]. destruct r, s; simpl in *; lra.
Qed.

Lemma describes_rne y mrs :
  describes y mrs -> round_nearest_even (shr_m mrs) (loc_of_shr_record mrs) = rne_Q y.
Proof.
  destruct mrs as [m r s]. intros D.
  pose proof D as D'. destruct D' as [_ [[H1 H2] _]]. simpl in H1, H2.
  apply describes_char in D. destruct D as [Hm Hc].
  unfold rne_Q. rewrite (Qfloor_unique y m H1 H2). simpl.
  destruct r, s; simpl in Hc.
  - replace (y - inject_Z m ?= 1 # 2) with Gt. reflexivity.
    symmetry. apply (proj1 (Qgt_alt _ _)). lra.
  - replace (y - inject_Z m ?= 1 # 2) with Eq. reflexivity.
    symmetry. apply (proj1 (Qeq_alt _ _)). lra.
  - replace (y - inject_Z m ?= 1 # 2) with Lt. reflexivity.
    symmetry. apply (proj1 (Qlt_alt _ _)). lra.
  - replace (y - inject_Z m ?= 1 # 2) with Lt. reflexivity.
    symmetry. apply (proj1 (Qlt_alt _ _)). lra.
Qed.

Lemma inject_Z_xO p : inject_Z (Zpos (xO p)) == 2 * inject_Z (Zpos p).
Proof. rewrite Pos2Z.inj_xO, inject_Z_mult. reflexivity. Qed.

Lemma inject_Z_xI p : inject_Z (Zpos (xI p)) == 2 * inject_Z (Zpos p) + 1.
Proof. rewrite Pos2Z.inj_xI, inject_Z_plus, inject_Z_mult. reflexivity. Qed.

Lemma describes_shr_1 y mrs : describes y mrs -> describes (y * (1#2)) (shr_1 mrs).
Proof.
  destruct mrs as [m r s]. rewrite describes_char. intros [Hm Hc].
  destruct m as [|p|p]; [| |lia].
  - destruct r, s; simpl in *; apply describes_char; simpl; (split; [lia|]);
      change (inject_Z 0) with 0 in *; lra.
  - destruct p as [p|p|].
    + pose proof (inject_Z_xI p). pose proof (Zle_0_pos p).
      destruct r, s; simpl in *; apply describes_char; simpl; (split; [lia|]); lra.
    + pose proof (inject_Z_xO p). pose proof (Zle_0_pos p).
      destruct r, s; simpl in *; apply describes_char; simpl; (split; [lia|]); lra.
    + change (inject_Z 1) with 1 in Hc.
      destruct r, s; simpl in *; apply describes_char; simpl; (split; [lia|]);
        change (inject_Z 0) with 0 in *; lra.
Qed.

Lemma iter_succ_r {A} (f : A -> A) n x : Nat.iter n f (f x) = f (Nat.iter n f x).
Proof. induction n; simpl; congruence. Qed.

Lemma iter_pos_nat {A} (f : A -> A) p x : iter_pos f p x = Nat.iter (Pos.to_nat p) f x.
Proof.
  revert x; induction p as [p IH|p IH|]; intros x.
  - change (iter_pos f (xI p) x) with (iter_pos f p (iter_pos f p (f x))).
    rewrite !IH, Pos2Nat.inj_xI. simpl. rewrite Nat.add_0_r, Nat.iter_add, !iter_succ_r.
    reflexivity.
  - change (iter_pos f (xO p) x) with (iter_pos f p (iter_pos f p x)).
    rewrite !IH, Pos2Nat.inj_xO. simpl. rewrite Nat.add_0_r, Nat.iter_add. reflexivity.
  - reflexivity.
Qed.

Lemma describes_iter n y mrs :
  describes y mrs -> describes (y * pow2 (- Z.of_nat n)) (Nat.iter n shr_1 mrs).
Proof.
  revert y mrs; induction n as [|n IH]; intros y mrs D.
  - simpl. apply (describes_proper y); [unfold pow2; simpl; ring | exact D].
  - cbn [Nat.iter]. apply (describes_proper ((y * pow2 (- Z.of_nat n)) * (1#2))).
    + replace (- Z.of_nat (S n))%Z with (- Z.of_nat n + -1)%Z by lia.
      rewrite pow2_add. change (pow2 (-1)) with (1#2). ring.
    + apply describes_shr_1, IH, D.
Qed.

Lemma describes_shr y mrs e d :
  describes y mrs -> (0 <= d)%Z ->
  describes (y * pow2 (- d)) (fst (shr mrs e d)) /\ snd (shr mrs e d) = (e + d)%Z.
Proof.
  intros D Hd. destruct d as [|p|p]; [| |lia]; simpl.
  - split; [|lia]. apply (describes_proper y); [unfold pow2; simpl; ring | exact D].
  - rewrite iter_pos_nat. split; [|reflexivity].
    pose proof (describes_iter (Pos.to_nat p) y mrs D) as X.
    rewrite positive_nat_Z in X. exact X.
Qed.

Lemma digits_bounds p :
  (2 ^ (Zpos (digits2_pos p) - 1) <= Zpos p < 2 ^ Zpos (digits2_pos p))%Z.
Proof.
  induction p as [p IH|p IH|]; simpl digits2_pos;
    [rewrite Pos2Z.inj_succ, (Pos2Z.inj_xI p) | rewrite Pos2Z.inj_succ, (Pos2Z.inj_xO p) | simpl; lia];
    set (d := Zpos (digits2_pos p)) in *;
    assert (E : (2 ^ Z.succ d = 2 * 2 ^ d)%Z) by (apply Z.pow_succ_r; lia);
    assert (E2 : (2 ^ d = 2 * 2 ^ (d - 1))%Z) by (rewrite <- Z.pow_succ_r by lia; f_equal; lia);
    replace (Z.succ d - 1)%Z with d by lia; rewrite E; lia.
Qed.

Lemma digits_le p k : (0 <= k)%Z -> (Zpos p < 2 ^ k)%Z -> (Zpos (digits2_pos p) <= k)%Z.
Proof.
  intros Hk H. pose proof (digits_bounds p) as [A _].
  destruct (Z.le_gt_cases (Zpos (digits2_pos p)) k) as [C|C]; [exact C|].
  assert (2 ^ k <= 2 ^ (Zpos (digits2_pos p) - 1))%Z by (apply Z.pow_le_mono_r; lia).
  lia.
Qed.

Lemma digits_ge p k : (0 <= k)%Z -> (2 ^ k <= Zpos p)%Z -> (k + 1 <= Zpos (digits2_pos p))%Z.
Proof.
  intros Hk H. pose proof (digits_bounds p) as [_ A].
  destruct (Z.le_gt_cases (k + 1) (Zpos (digits2_pos p))) as [C|C]; [exact C|].
  assert (2 ^ Zpos (digits2_pos p) <= 2 ^ k)%Z by (apply Z.pow_le_mono_r; lia).
  lia.
Qed.

Lemma shr_m_of_loc m l : shr_m (shr_record_of_loc m l) = m.
Proof. destruct l as [|[]]; reflexivity. Qed.

Lemma shr_nonpos mrs e d : (d <= 0)%Z -> shr mrs e d = (mrs, e).
Proof. destruct d; simpl; lia || reflexivity. Qed.

Lemma describes_exact n : (0 <= n)%Z -> describes (inject_Z n) (Build_shr_record n false false).
Proof. intros H. apply describes_char. split; [exact H|]. simpl. reflexivity. Qed.

Lemma describes_floor y mrs :
  describes y mrs -> inject_Z (shr_m mrs) <= y /\ y < inject_Z (shr_m mrs) + 1.
Proof. intros [_ [A _]]. exact A. Qed.

Lemma Z_of_Q_bounds (m k : Z) : inject_Z m <= inject_Z k -> inject_Z k < inject_Z m + 1 -> m = k.
Proof.
  intros A B. apply inject_Z_le in A.
  assert (C : (k < m + 1)%Z) by (apply inject_Z_lt; rewrite inject_Z_plus; exact B).
  lia.
Qed.

Lemma fexp_b64 e : fexp prec emax e = b64_fexp e.
Proof. reflexivity. Qed.

Lemma canonical_b64 m e :
  canonical_mantissa prec emax m e = Z.eqb (b64_fexp (Zpos (digits2_pos m) + e)) e.
Proof. reflexivity. Qed.

Lemma bounded_b64 m e :
  bounded prec emax m e = (Z.eqb (b64_fexp (Zpos (digits2_pos m) + e)) e && Z.leb e 971)%bool.
Proof. reflexivity. Qed.

Lemma round_aux_spec sx mx ex lx y :
  (0 < mx)%Z -> describes y (shr_record_of_loc mx lx) ->
  (ex <= b64_fexp (Zdigits2 mx + ex))%Z ->
  let F := b64_fexp (Zdigits2 mx + ex) in
  let n := rne_Q (y * pow2 (ex - F)) in
  (n = 0%Z /\ binary_round_aux prec emax sx mx ex lx = S754_zero sx) \/
  ((0 < n)%Z /\
   (((970 <= F)%Z /\ binary_round_aux prec emax sx mx ex lx = S754_infinity sx) \/
    exists m e, binary_round_aux prec emax sx mx ex lx = S754_finite sx m e /\
      bounded prec emax m e = true /\ inject_Z (Zpos m) * pow2 e == inject_Z n * pow2 F)).
Proof.
  intros Hmx Dy Hex F n.
  destruct mx as [|p|p]; try lia. clear Hmx.
  simpl Zdigits2 in *. set (D := Zpos (digits2_pos p)) in *.
  pose proof (digits_bounds p) as [Dlo Dhi]. fold D in Dlo, Dhi.
  pose proof (describes_floor _ _ Dy) as [Y1 Y2]. rewrite shr_m_of_loc in Y1, Y2.
  (* magnitude of the scaled value *)
  set (x := y * pow2 (ex - F)).
  assert (HD : (1 <= D)%Z) by (unfold D; lia).
  assert (X1 : pow2 (D - 1 + ex - F) <= x).
  { unfold x. replace (D - 1 + ex - F)%Z with ((D - 1) + (ex - F))%Z by lia.
    rewrite pow2_add. apply Qmult_le_compat_r; [|apply Qlt_le_weak, pow2_pos].
    rewrite pow2_Z by lia. apply (proj1 (inject_Z_le _ _)) in Dlo. lra. }
  assert (X2 : x < pow2 (D + ex - F)).
  { unfold x. replace (D + ex - F)%Z with (D + (ex - F))%Z by lia.
    rewrite pow2_add. apply Qmult_lt_compat_r; [apply pow2_pos|].
    rewrite pow2_Z by lia.
    assert (Hp : inject_Z (Zpos p + 1) <= inject_Z (2 ^ D)) by (apply (proj1 (inject_Z_le _ _)); lia).
    rewrite inject_Z_plus in Hp. change (inject_Z 1) with 1 in Hp.
    lra. }
  assert (Hn0 : (0 <= n)%Z).
  { apply rne_Q_ge; fold x. pose proof (pow2_pos (D - 1 + ex - F)). change (0 <= x). lra. }
  assert (HFge : (-1074 <= F)%Z) by (unfold F, b64_fexp; lia).
  (* bounds on n *)
  assert (Hn53 : (n <= 2 ^ 53)%Z).
  { apply rne_Q_le; fold x. rewrite <- pow2_Z by lia.
    assert (pow2 (D + ex - F) <= pow2 53) by (apply pow2_le; unfold F, b64_fexp; lia). lra. }
  assert (Hnorm : F = (D + ex - 53)%Z -> (2 ^ 52 <= n)%Z).
  { intros EF. apply rne_Q_ge; fold x. rewrite <- pow2_Z by lia.
    replace (D - 1 + ex - F)%Z with 52%Z in X1 by lia. exact X1. }
  assert (Hsub : F <> (D + ex - 53)%Z -> (n <= 2 ^ 52)%Z).
  { intros EF. apply rne_Q_le; fold x. rewrite <- pow2_Z by lia.
    assert (pow2 (D + ex - F) <= pow2 52) by (apply pow2_le; unfold F, b64_fexp in *; lia). lra. }
  (* first rounding step *)
  unfold binary_round_aux, shr_fexp. simpl Zdigits2. fold D.
  rewrite fexp_b64. fold F.
  destruct (describes_shr _ _ ex (F - ex) Dy ltac:(lia)) as [R1D R1e].
  destruct (shr (shr_record_of_loc (Zpos p) lx) ex (F - ex)) as [R1 e1] eqn:E1.
  simpl in R1D, R1e. subst e1. replace (ex + (F - ex))%Z with F by lia.
  rewrite (describes_rne _ _ R1D).
  replace (rne_Q (y * pow2 (- (F - ex)))) with n
    by (apply rne_Q_proper; replace (- (F - ex))%Z with (ex - F)%Z by lia; reflexivity).
  (* second step *)
  rewrite fexp_b64.
  destruct (Z.eq_dec n 0) as [Z0n|NZn].
  - left. split; [exact Z0n|]. rewrite Z0n. simpl Zdigits2.
    rewrite shr_nonpos by (unfold b64_fexp in *; lia). reflexivity.
  - right. split; [lia|].
    destruct n as [|q|q] eqn:En; [lia| |lia]. clear NZn.
    simpl Zdigits2.
    destruct (Z.eq_dec (Zpos q) (2 ^ 53)) as [Top|Top].
    + (* carry into the next binade *)
      assert (EF : F = (D + ex - 53)%Z).
      { destruct (Z.eq_dec F (D + ex - 53)) as [E|E]; [exact E|]. specialize (Hsub E). lia. }
      assert (Dq : Zpos (digits2_pos q) = 54%Z).
      { assert (q = 9007199254740992%positive) by lia. subst q. reflexivity. }
      rewrite Dq.
      assert (Ed : (b64_fexp (54 + F) - F = 1)%Z) by (unfold b64_fexp in *; lia).
      rewrite Ed.
      destruct (describes_shr _ _ F 1 (describes_exact (Zpos q) ltac:(lia)) ltac:(lia)) as [R2D R2e].
      change (shr_record_of_loc (Zpos q) loc_Exact) with (Build_shr_record (Zpos q) false false).
      destruct (shr (Build_shr_record (Zpos q) false false) F 1) as [R2 e2].
      cbn [fst snd] in R2D, R2e. subst e2.
      assert (V : inject_Z (Zpos q) * pow2 (- 1) == inject_Z (2 ^ 52)).
      { rewrite Top, <- !pow2_Z by lia. rewrite <- pow2_add.
        replace (53 + - 1)%Z with 52%Z by reflexivity. reflexivity. }
      pose proof (describes_floor _ _ (describes_proper _ _ _ V R2D)) as [A B].
      assert (M2 : shr_m R2 = (2 ^ 52)%Z) by (apply Z_of_Q_bounds; assumption).
      rewrite M2. simpl shr_m.
      destruct (Z.leb_spec (F + 1) (emax - prec)) as [Hb|Hb].
      * right. exists (2 ^ 52)%positive, (F + 1)%Z. split; [reflexivity|]. split.
        -- rewrite bounded_b64. apply andb_true_intro. split.
           ++ apply Z.eqb_eq. change (Zpos (digits2_pos (2 ^ 52))) with 53%Z.
              unfold b64_fexp in *. lia.
           ++ apply Z.leb_le. exact Hb.
        -- rewrite Top. rewrite <- !pow2_Z by lia. rewrite pow2_add, pow2_1.
           change (inject_Z (Zpos (2 ^ 52))) with (inject_Z (2 ^ 52)%Z). rewrite <- pow2_Z by lia.
           replace (pow2 53) with (pow2 (52 + 1)) by reflexivity. rewrite pow2_add, pow2_1. ring.
      * left. split; [change (emax - prec)%Z with 971%Z in Hb; lia | reflexivity].
    + assert (Hq : (Zpos q < 2 ^ 53)%Z) by lia.
      pose proof (digits_le q 53 ltac:(lia) Hq) as Dq.
      assert (Ed : (b64_fexp (Zpos (digits2_pos q) + F) - F <= 0)%Z) by (unfold b64_fexp in *; lia).
      rewrite (shr_nonpos _ _ _ Ed). simpl shr_m.
      destruct (Z.leb_spec F (emax - prec)) as [Hb|Hb].
      * right. exists q, F. split; [reflexivity|]. split; [|reflexivity].
        rewrite bounded_b64. apply andb_true_intro. split; [|apply Z.leb_le; exact Hb].
        apply Z.eqb_eq.
        destruct (Z.eq_dec F (D + ex - 53)) as [E|E].
        -- specialize (Hnorm E). pose proof (digits_ge q 52 ltac:(lia) Hnorm).
           unfold b64_fexp in *. lia.
        -- unfold b64_fexp in *. lia.
      * left. split; [change (emax - prec)%Z with 971%Z in Hb; lia | reflexivity].
Qed.

Lemma pow2_sub a b : pow2 a * pow2 (- b) == pow2 (a - b).
Proof. rewrite <- pow2_add. reflexivity. Qed.

Lemma b64_fexp_mono a b : (a <= b)%Z -> (b64_fexp a <= b64_fexp b)%Z.
Proof. unfold b64_fexp. lia. Qed.

Lemma inject_Z_nonneg z : (0 <= z)%Z -> 0 <= inject_Z z.
Proof. intros H. change 0 with (inject_Z 0). apply (proj1 (inject_Z_le _ _)). exact H. Qed.

Lemma rnd_rel_proper X1 X2 v1 v2 : X1 == X2 -> v1 == v2 -> rnd_rel X1 v1 -> rnd_rel X2 v2.
Proof.
  intros EX Ev [[A B]|[M [A [B C]]]].
  - left. split; [rewrite <- EX | rewrite <- Ev]; assumption.
  - right. exists M. split; [rewrite <- EX; exact A|]. split; [rewrite <- EX; exact B|].
    rewrite <- Ev, C. rewrite (rne_Q_proper (X1 * pow2 (- b64_fexp M)) (X2 * pow2 (- b64_fexp M)))
      by (rewrite EX; reflexivity). reflexivity.
Qed.

Lemma rnd_rel_nonneg X v : 0 <= X -> rnd_rel X v -> 0 <= v.
Proof.
  intros HX [[A B]|[M [A [B C]]]]; [lra|].
  rewrite C. apply Qmult_le_0_compat; [|apply Qlt_le_weak, pow2_pos].
  apply inject_Z_nonneg, rne_Q_ge. change (inject_Z 0) with 0.
  apply Qmult_le_0_compat; [exact HX | apply Qlt_le_weak, pow2_pos].
Qed.

Lemma rnd_rel_mono X1 X2 v1 v2 :
  0 <= X1 -> X1 <= X2 -> rnd_rel X1 v1 -> rnd_rel X2 v2 -> v1 <= v2.
Proof.
  intros H0 H12 R1 R2.
  destruct R1 as [[A1 B1]|[M1 [A1 [B1 C1]]]].
  { rewrite B1. apply (rnd_rel_nonneg X2); [lra | exact R2]. }
  destruct R2 as [[A2 B2]|[M2 [A2 [B2 C2]]]].
  { pose proof (pow2_pos (M1 - 1)). lra. }
  assert (HM : (M1 <= M2)%Z).
  { destruct (Z.le_gt_cases M1 M2) as [E|E]; [exact E|].
    assert (pow2 M2 <= pow2 (M1 - 1)) by (apply pow2_le; lia). lra. }
  set (F1 := b64_fexp M1) in *. set (F2 := b64_fexp M2) in *.
  assert (HF : (F1 <= F2)%Z) by (apply b64_fexp_mono; exact HM).
  rewrite C1, C2.
  destruct (Z.eq_dec F1 F2) as [E|E].
  - rewrite E. apply Qmult_le_compat_r; [|apply Qlt_le_weak, pow2_pos].
    apply (proj1 (inject_Z_le _ _)). apply rne_Q_mono.
    apply Qmult_le_compat_r; [exact H12 | apply Qlt_le_weak, pow2_pos].
  - assert (EF2 : F2 = (M2 - 53)%Z) by (unfold F1, F2, b64_fexp in *; lia).
    apply (Qle_trans _ (pow2 (M2 - 1))).
    + assert (N1 : (rne_Q (X1 * pow2 (- F1)) <= 2 ^ (M2 - 1 - F1))%Z).
      { apply rne_Q_le. rewrite <- pow2_Z by (unfold F1, b64_fexp in *; lia).
        rewrite <- pow2_sub. apply Qmult_le_compat_r; [|apply Qlt_le_weak, pow2_pos].
        assert (pow2 M1 <= pow2 (M2 - 1)).
        { apply pow2_le. unfold F1, F2, b64_fexp in *; lia. }
        lra. }
      apply (proj1 (inject_Z_le _ _)) in N1.
      rewrite <- pow2_Z in N1 by (unfold F1, b64_fexp in *; lia).
      apply (Qle_trans _ (pow2 (M2 - 1 - F1) * pow2 F1)).
      * apply Qmult_le_compat_r; [exact N1 | apply Qlt_le_weak, pow2_pos].
      * rewrite <- pow2_add. replace (M2 - 1 - F1 + F1)%Z with (M2 - 1)%Z by lia. apply Qle_refl.
    + assert (N2 : (2 ^ 52 <= rne_Q (X2 * pow2 (- F2)))%Z).
      { apply rne_Q_ge. rewrite <- pow2_Z by lia.
        replace 52%Z with (M2 - 1 - F2)%Z by lia. rewrite <- pow2_sub.
        apply Qmult_le_compat_r; [exact A2 | apply Qlt_le_weak, pow2_pos]. }
      apply (proj1 (inject_Z_le _ _)) in N2. rewrite <- pow2_Z in N2 by lia.
      apply (Qle_trans _ (pow2 52 * pow2 F2)).
      * rewrite <- pow2_add. replace (52 + F2)%Z with (M2 - 1)%Z by lia. apply Qle_refl.
      * apply Qmult_le_compat_r; [exact N2 | apply Qlt_le_weak, pow2_pos].
Qed.

Lemma rnd_rel_one : rnd_rel 1 1.
Proof.
  right. exists 1%Z. split; [apply Qle_refl|]. split; [reflexivity|].
  change (b64_fexp 1) with (-52)%Z.
  rewrite (rne_Q_proper (1 * pow2 (- -52)) (inject_Z (2 ^ 52))) by reflexivity.
  rewrite rne_Q_int. reflexivity.
Qed.

Lemma rnd_rel_unit X v : 0 <= X -> X <= 1 -> rnd_rel X v -> 0 <= v /\ v <= 1.
Proof.
  intros H0 H1 R. split; [exact (rnd_rel_nonneg X v H0 R)|].
  exact (rnd_rel_mono X 1 v 1 H0 H1 R rnd_rel_one).
Qed.

Lemma round_aux_val mx ex lx y :
  (0 < mx)%Z -> describes y (shr_record_of_loc mx lx) ->
  (ex <= b64_fexp (Zdigits2 mx + ex))%Z ->
  y * pow2 ex <= 1 ->
  let r := binary_round_aux prec emax false mx ex lx in
  valid_binary r = true /\ fnonneg r = true /\ rnd_rel (y * pow2 ex) (sval r).
Proof.
  intros Hmx Dy Hex H1 r.
  pose proof (round_aux_spec false mx ex lx y Hmx Dy Hex) as S.
  cbv zeta in S. fold r in S.
  destruct mx as [|p|p]; try lia.
  simpl Zdigits2 in *. set (D := Zpos (digits2_pos p)) in *.
  set (F := b64_fexp (D + ex)) in *.
  set (n := rne_Q (y * pow2 (ex - F))) in *.
  pose proof (digits_bounds p) as [Dlo Dhi]. fold D in Dlo, Dhi.
  pose proof (describes_floor _ _ Dy) as [Y1 Y2]. rewrite shr_m_of_loc in Y1, Y2.
  assert (HD : (1 <= D)%Z) by (unfold D; lia).
  assert (X1 : pow2 (D + ex - 1) <= y * pow2 ex).
  { replace (D + ex - 1)%Z with ((D - 1) + ex)%Z by lia.
    rewrite pow2_add. apply Qmult_le_compat_r; [|apply Qlt_le_weak, pow2_pos].
    rewrite pow2_Z by lia. apply (proj1 (inject_Z_le _ _)) in Dlo. lra. }
  assert (X2 : y * pow2 ex < pow2 (D + ex)).
  { rewrite pow2_add. apply Qmult_lt_compat_r; [apply pow2_pos|].
    rewrite pow2_Z by lia.
    assert (Hp : inject_Z (Zpos p + 1) <= inject_Z (2 ^ D)) by (apply (proj1 (inject_Z_le _ _)); lia).
    rewrite inject_Z_plus in Hp. change (inject_Z 1) with 1 in Hp. lra. }
  assert (En : n = rne_Q (y * pow2 ex * pow2 (- F))).
  { apply rne_Q_proper. rewrite <- Qmult_assoc, pow2_sub. reflexivity. }
  assert (R : forall v, v == inject_Z n * pow2 F -> rnd_rel (y * pow2 ex) v).
  { intros v Ev. right. exists (D + ex)%Z. split; [exact X1|]. split; [exact X2|].
    fold F. rewrite <- En. exact Ev. }
  destruct S as [[Zn Er]|[Pn [[HF Er]|[m [e [Er [Hb Ev]]]]]]].
  - rewrite Er. split; [reflexivity|]. split; [reflexivity|].
    apply R. rewrite Zn. simpl. ring.
  - exfalso. assert (pow2 1 <= pow2 (D + ex - 1)) by (apply pow2_le; unfold F, b64_fexp in *; lia).
    rewrite pow2_1 in H. lra.
  - rewrite Er. split; [exact Hb|]. split; [reflexivity|].
    apply R. simpl. exact Ev.
Qed.

Lemma canonical_exp_bounds m e :
  canonical_mantissa prec emax m e = true ->
  (-1074 <= e)%Z /\ (Zpos (digits2_pos m) <= 53)%Z /\
  ((-1074 < e)%Z -> Zpos (digits2_pos m) = 53%Z).
Proof. rewrite canonical_b64. intros H. apply Z.eqb_eq in H. unfold b64_fexp in H. lia. Qed.

Lemma val_lt_exp m1 e1 m2 e2 :
  canonical_mantissa prec emax m1 e1 = true -> canonical_mantissa prec emax m2 e2 = true ->
  (e1 < e2)%Z -> inject_Z (Zpos m1) * pow2 e1 < inject_Z (Zpos m2) * pow2 e2.
Proof.
  intros C1 C2 He.
  destruct (canonical_exp_bounds _ _ C1) as [A1 [B1 _]].
  destruct (canonical_exp_bounds _ _ C2) as [A2 [B2 D2]].
  specialize (D2 ltac:(lia)).
  pose proof (digits_bounds m1) as [_ U1]. pose proof (digits_bounds m2) as [L2 _].
  assert (U : inject_Z (Zpos m1) < pow2 53).
  { rewrite pow2_Z by lia. apply (proj1 (inject_Z_lt _ _)).
    assert (2 ^ Zpos (digits2_pos m1) <= 2 ^ 53)%Z by (apply Z.pow_le_mono_r; lia). lia. }
  assert (L : pow2 52 <= inject_Z (Zpos m2)).
  { rewrite pow2_Z by lia. apply (proj1 (inject_Z_le _ _)). rewrite D2 in L2. exact L2. }
  apply (Qlt_le_trans _ (pow2 53 * pow2 e1)).
  - apply Qmult_lt_compat_r; [apply pow2_pos | exact U].
  - apply (Qle_trans _ (pow2 52 * pow2 e2)).
    + rewrite <- !pow2_add. apply pow2_le. lia.
    + apply Qmult_le_compat_r; [exact L | apply Qlt_le_weak, pow2_pos].
Qed.

Lemma sval_pos_finite m e : 0 < sval (S754_finite false m e).
Proof.
  simpl. apply Qmult_lt_0_compat; [|apply pow2_pos].
  change 0 with (inject_Z 0). apply (proj1 (inject_Z_lt _ _)). lia.
Qed.

Lemma SFcompare_nonneg x y :
  valid_binary x = true -> valid_binary y = true ->
  fnonneg x = true -> fnonneg y = true ->
  SFcompare x y = Some (sval x ?= sval y).
Proof.
  intros Vx Vy Nx Ny.
  destruct x as [sx| | |[] mx ex]; try discriminate;
  destruct y as [sy| | |[] my ey]; try discriminate.
  - reflexivity.
  - simpl SFcompare. f_equal. symmetry. apply (proj1 (Qlt_alt _ _)).
    apply (sval_pos_finite my ey).
  - simpl SFcompare. f_equal. symmetry. apply (proj1 (Qgt_alt _ _)).
    apply (sval_pos_finite mx ex).
  - simpl in Vx, Vy. unfold bounded in Vx, Vy.
    apply andb_prop in Vx as [Cx _]. apply andb_prop in Vy as [Cy _].
    simpl SFcompare. f_equal.
    destruct (Z.compare_spec ex ey) as [E|E|E].
    + subst ey. change (PosDef.Pos.compare_cont Eq mx my) with (Pos.compare mx my). simpl sval.
      destruct (Pos.compare_spec mx my) as [F|F|F].
      * subst. symmetry. apply (proj1 (Qeq_alt _ _)). reflexivity.
      * symmetry. apply (proj1 (Qlt_alt _ _)). apply Qmult_lt_compat_r; [apply pow2_pos|].
        apply (proj1 (inject_Z_lt _ _)). lia.
      * symmetry. apply (proj1 (Qgt_alt _ _)). apply Qmult_lt_compat_r; [apply pow2_pos|].
        apply (proj1 (inject_Z_lt _ _)). lia.
    + symmetry. apply (proj1 (Qlt_alt _ _)). exact (val_lt_exp _ _ _ _ Cx Cy E).
    + symmetry. apply (proj1 (Qgt_alt _ _)). exact (val_lt_exp _ _ _ _ Cy Cx E).
Qed.

Lemma sval_nonneg x : fnonneg x = true -> 0 <= sval x.
Proof.
  destruct x as [| | |[] m e]; try discriminate; intros _; simpl; try apply Qle_refl.
  apply Qlt_le_weak, (sval_pos_finite m e).
Qed.

Lemma Qmult_unit a b : 0 <= a -> a <= 1 -> 0 <= b -> b <= 1 -> a * b <= 1.
Proof.
  intros A1 A2 B1 B2. apply (Qle_trans _ (1 * b)).
  - apply Qmult_le_compat_r; assumption.
  - lra.
Qed.

Lemma digits_mul_ge a b :
  (Zpos (digits2_pos a) + Zpos (digits2_pos b) - 1 <= Zpos (digits2_pos (a * b)))%Z.
Proof.
  pose proof (digits_bounds a) as [A _]. pose proof (digits_bounds b) as [B _].
  assert (C : (2 ^ (Zpos (digits2_pos a) + Zpos (digits2_pos b) - 2) <= Zpos (a * b))%Z).
  { replace (Zpos (digits2_pos a) + Zpos (digits2_pos b) - 2)%Z
      with ((Zpos (digits2_pos a) - 1) + (Zpos (digits2_pos b) - 1))%Z by lia.
    rewrite Z.pow_add_r by lia. rewrite Pos2Z.inj_mul.
    apply Z.mul_le_mono_nonneg; try lia; apply Z.pow_nonneg; lia. }
  pose proof (digits_ge (a * b) (Zpos (digits2_pos a) + Zpos (digits2_pos b) - 2) ltac:(lia) C) as D. lia.
Qed.

Lemma mul_exp_ok ma ea mb eb :
  canonical_mantissa prec emax ma ea = true -> canonical_mantissa prec emax mb eb = true ->
  (ea + eb <= b64_fexp (Zdigits2 (Zpos (ma * mb)) + (ea + eb)))%Z.
Proof.
  intros Ca Cb. rewrite canonical_b64 in Ca, Cb. apply Z.eqb_eq in Ca, Cb.
  pose proof (digits_mul_ge ma mb). simpl Zdigits2.
  pose proof (Zle_0_pos (digits2_pos ma)). pose proof (Zle_0_pos (digits2_pos mb)).
  unfold b64_fexp in *. lia.
Qed.

Lemma SFmul_unit a b :
  valid_binary a = true -> valid_binary b = true -> fnonneg a = true -> fnonneg b = true ->
  sval a <= 1 -> sval b <= 1 ->
  let r := SFmul prec emax a b in
  valid_binary r = true /\ fnonneg r = true /\ rnd_rel (sval a * sval b) (sval r).
Proof.
  intros Va Vb Na Nb Ha Hb r.
  destruct a as [sa| | |[] ma ea]; try discriminate;
  destruct b as [sb| | |[] mb eb]; try discriminate;
  try (split; [reflexivity|]; split; [reflexivity|]; left; simpl; split; ring).
  unfold r. simpl SFmul. change (xorb false false) with false.
  assert (E : inject_Z (Zpos (ma * mb)) * pow2 (ea + eb)
              == sval (S754_finite false ma ea) * sval (S754_finite false mb eb)).
  { simpl. rewrite Pos2Z.inj_mul, inject_Z_mult, pow2_add. ring. }
  simpl in Va, Vb. unfold bounded in Va, Vb.
  apply andb_prop in Va as [Ca _]. apply andb_prop in Vb as [Cb _].
  pose proof (sval_nonneg _ Na). pose proof (sval_nonneg _ Nb).
  destruct (round_aux_val (Zpos (ma * mb)) (ea + eb) loc_Exact (inject_Z (Zpos (ma * mb)))
              ltac:(lia) (describes_exact (Zpos (ma * mb)) ltac:(lia)) (mul_exp_ok _ _ _ _ Ca Cb))
    as [V [N R]].
  { rewrite E. apply Qmult_unit; assumption. }
  split; [exact V|]. split; [exact N|].
  exact (rnd_rel_proper _ _ _ _ E (Qeq_refl _) R).
Qed.

Lemma iter_xO m d : Zpos (Pos.iter xO m d) = (Zpos m * 2 ^ Zpos d)%Z.
Proof.
  induction d as [|d IH] using Pos.peano_ind.
  - simpl. lia.
  - rewrite Pos.iter_succ, Pos2Z.inj_xO, IH, Pos2Z.inj_succ, Z.pow_succ_r by lia. lia.
Qed.

Lemma digits_iter_xO m d :
  Zpos (digits2_pos (Pos.iter xO m d)) = (Zpos (digits2_pos m) + Zpos d)%Z.
Proof.
  induction d as [|d IH] using Pos.peano_ind.
  - simpl. rewrite Pos2Z.inj_succ. lia.
  - rewrite Pos.iter_succ. simpl digits2_pos. rewrite Pos2Z.inj_succ, IH, Pos2Z.inj_succ. lia.
Qed.

Lemma shl_align_fst mx ex ez :
  (ez <= ex)%Z -> Zpos (fst (shl_align mx ex ez)) = (Zpos mx * 2 ^ (ex - ez))%Z.
Proof.
  intros H. unfold shl_align.
  destruct (ez - ex)%Z eqn:E.
  - replace (ex - ez)%Z with 0%Z by lia. simpl. lia.
  - lia.
  - simpl fst. rewrite iter_xO. replace (ex - ez)%Z with (Zpos p) by lia. reflexivity.
Qed.

Lemma binary_round_form m e :
  exists mz ez,
    binary_round prec emax false m e = binary_round_aux prec emax false (Zpos mz) ez loc_Exact /\
    inject_Z (Zpos mz) * pow2 ez == inject_Z (Zpos m) * pow2 e /\
    (ez <= b64_fexp (Zdigits2 (Zpos mz) + ez))%Z.
Proof.
  unfold binary_round. rewrite fexp_b64.
  set (f := b64_fexp (Zpos (digits2_pos m) + e)).
  unfold shl_align. destruct (f - e)%Z eqn:E.
  - exists m, e. split; [reflexivity|]. split; [reflexivity|]. simpl Zdigits2. fold f. lia.
  - exists m, e. split; [reflexivity|]. split; [reflexivity|]. simpl Zdigits2. fold f. lia.
  - exists (Pos.iter xO m p), f. split; [reflexivity|]. split.
    + rewrite iter_xO, inject_Z_mult, <- pow2_Z by lia. rewrite <- Qmult_assoc, <- pow2_add.
      replace (Zpos p + f)%Z with e by lia. reflexivity.
    + simpl Zdigits2. rewrite digits_iter_xO.
      replace (Zpos (digits2_pos m) + Zpos p + f)%Z with (Zpos (digits2_pos m) + e)%Z by lia.
      fold f. lia.
Qed.

Lemma sval_one : sval one_sf == 1.
Proof. reflexivity. Qed.

Lemma SFsub_one_unit p :
  valid_binary p = true -> fnonneg p = true -> sval p <= 1 ->
  let r := SFsub prec emax one_sf p in
  valid_binary r = true /\ fnonneg r = true /\ rnd_rel (1 - sval p) (sval r).
Proof.
  intros Vp Np Hp r. pose proof (sval_nonneg _ Np) as Hp0.
  destruct p as [sp| | |[] mp ep]; try discriminate.
  - unfold r. simpl SFsub. split; [reflexivity|]. split; [reflexivity|].
    apply (rnd_rel_proper 1 _ 1); [simpl; ring | symmetry; exact sval_one | exact rnd_rel_one].
  - unfold r.
    change (SFsub prec emax one_sf (S754_finite false mp ep)) with
      (binary_normalize prec emax
         (Zpos (fst (shl_align 4503599627370496 (-52) (Z.min (-52) ep)))
          - Zpos (fst (shl_align mp ep (Z.min (-52) ep))))%Z (Z.min (-52) ep) false).
    set (ez := Z.min (-52) ep).
    rewrite (shl_align_fst _ _ ez) by (unfold ez; lia).
    rewrite (shl_align_fst mp ep ez) by (unfold ez; lia).
    assert (Ev : inject_Z (4503599627370496 * 2 ^ (-52 - ez) - Zpos mp * 2 ^ (ep - ez)) * pow2 ez
                 == 1 - sval (S754_finite false mp ep)).
    { unfold Z.sub. rewrite inject_Z_plus, inject_Z_opp, !inject_Z_mult.
      rewrite <- !pow2_Z by (unfold ez; lia). simpl sval.
      change (inject_Z 4503599627370496) with (pow2 52).
      transitivity (pow2 52 * (pow2 (-52 + - ez) * pow2 ez)
                    - inject_Z (Zpos mp) * (pow2 (ep + - ez) * pow2 ez)); [ring|].
      rewrite <- (pow2_add (-52 + - ez) ez), <- (pow2_add (ep + - ez) ez).
      replace (-52 + - ez + ez)%Z with (-52)%Z by lia.
      replace (ep + - ez + ez)%Z with ep by lia. rewrite <- pow2_add.
      change (pow2 (52 + -52)) with 1. reflexivity. }
    destruct (4503599627370496 * 2 ^ (-52 - ez) - Zpos mp * 2 ^ (ep - ez))%Z as [|m|m] eqn:Em.
    + simpl. split; [reflexivity|]. split; [reflexivity|]. left. split; [|reflexivity].
      rewrite <- Ev. simpl. ring.
    + simpl binary_normalize.
      destruct (binary_round_form m ez) as [mz [ez' [Er [Ez Hez]]]]. rewrite Er.
      assert (E2 : inject_Z (Zpos mz) * pow2 ez' == 1 - sval (S754_finite false mp ep))
        by (rewrite Ez; exact Ev).
      destruct (round_aux_val (Zpos mz) ez' loc_Exact (inject_Z (Zpos mz)) ltac:(lia)
                  (describes_exact (Zpos mz) ltac:(lia)) Hez) as [V [N R]].
      { rewrite E2. lra. }
      split; [exact V|]. split; [exact N|].
      exact (rnd_rel_proper _ _ _ _ E2 (Qeq_refl _) R).
    + exfalso.
      assert (inject_Z (Zneg m) * pow2 ez < 0).
      { rewrite <- (Qmult_0_l (pow2 ez)). apply Qmult_lt_compat_r; [apply pow2_pos|].
        change 0 with (inject_Z 0). apply (proj1 (inject_Z_lt _ _)). lia. }
      lra.
Qed.

Lemma describes_div (q r b : Z) :
  (0 <= q)%Z -> (0 <= r < b)%Z ->
  describes (inject_Z q + inject_Z r / inject_Z b) (shr_record_of_loc q (new_location b r)).
Proof.
  intros Hq Hr.
  assert (HB : 0 < inject_Z b) by (change 0 with (inject_Z 0); apply (proj1 (inject_Z_lt _ _)); lia).
  set (f := inject_Z r / inject_Z b).
  assert (F0 : 0 <= f).
  { apply Qle_shift_div_l; [exact HB|]. rewrite Qmult_0_l. apply inject_Z_nonneg. lia. }
  assert (F1 : f < 1).
  { apply Qlt_shift_div_r; [exact HB|]. rewrite Qmult_1_l. apply (proj1 (inject_Z_lt _ _)). lia. }
  assert (Flt : (2 * r < b)%Z -> f < 1#2).
  { intros H. apply Qlt_shift_div_r; [exact HB|].
    assert (inject_Z (2 * r) < inject_Z b) by (apply (proj1 (inject_Z_lt _ _)); lia).
    rewrite inject_Z_mult in H0. change (inject_Z 2) with 2 in H0. lra. }
  assert (Fgt : (b < 2 * r)%Z -> 1#2 < f).
  { intros H. apply Qlt_shift_div_l; [exact HB|].
    assert (inject_Z b < inject_Z (2 * r)) by (apply (proj1 (inject_Z_lt _ _)); lia).
    rewrite inject_Z_mult in H0. change (inject_Z 2) with 2 in H0. lra. }
  assert (Feq : (2 * r = b)%Z -> f == 1#2).
  { intros H. unfold f. rewrite <- H, inject_Z_mult. change (inject_Z 2) with 2.
    field. intro E. rewrite <- H, inject_Z_mult in HB. change (inject_Z 2) with 2 in HB. lra. }
  assert (Fpos : (0 < r)%Z -> 0 < f).
  { intros H. apply Qlt_shift_div_l; [exact HB|]. rewrite Qmult_0_l.
    change 0 with (inject_Z 0). apply (proj1 (inject_Z_lt _ _)). lia. }
  assert (Fz : r = 0%Z -> f == 0).
  { intros H. unfold f. rewrite H. change (inject_Z 0) with 0. unfold Qdiv. apply Qmult_0_l. }
  unfold new_location, new_location_even, new_location_odd.
  destruct (Z.even b) eqn:Eb; destruct (Z.eqb_spec r 0) as [R0|R0];
    try (apply describes_char; split; [exact Hq|]; simpl; specialize (Fz R0); lra).
  - destruct (Z.compare_spec (2 * r) b) as [C|C|C]; apply describes_char; split; try exact Hq;
      simpl.
    + specialize (Feq C). lra.
    + specialize (Flt C). specialize (Fpos ltac:(lia)). lra.
    + specialize (Fgt C). lra.
  - assert (Nb : (2 * r <> b)%Z).
    { intros C. assert (Z.even b = true) by (apply Z.even_spec; exists r; lia). congruence. }
    destruct (Z.compare_spec (2 * r + 1) b) as [C|C|C]; apply describes_char; split; try exact Hq;
      simpl.
    + specialize (Flt ltac:(lia)). specialize (Fpos ltac:(lia)). lra.
    + specialize (Flt ltac:(lia)). specialize (Fpos ltac:(lia)). lra.
    + specialize (Fgt ltac:(lia)). lra.
Qed.

Lemma div_core_spec (a b : positive) q e l :
  (Zpos a < Zpos b)%Z ->
  SFdiv_core_binary prec emax (Zpos a) 0 (Zpos b) 0 = (q, e, l) ->
  (0 <= q)%Z /\
  describes (inject_Z (Zpos a) / inject_Z (Zpos b) * pow2 (- e)) (shr_record_of_loc q l) /\
  (q = 0%Z -> e = (-1074)%Z) /\
  ((0 < q)%Z -> (e <= b64_fexp (Zdigits2 q + e))%Z).
Proof.
  intros Hab Hd. unfold SFdiv_core_binary in Hd.
  rewrite !Z.add_0_r, Z.sub_diag in Hd. simpl Zdigits2 in Hd.
  set (d1 := Zpos (digits2_pos a)) in *. set (d2 := Zpos (digits2_pos b)) in *.
  pose proof (digits_bounds a) as [A1 A2]. pose proof (digits_bounds b) as [B1 B2].
  fold d1 in A1, A2. fold d2 in B1, B2.
  assert (Hd12 : (d1 <= d2)%Z) by (apply digits_le; lia).
  rewrite fexp_b64 in Hd.
  replace (Z.min (b64_fexp (d1 - d2)) 0) with (b64_fexp (d1 - d2)) in Hd
    by (unfold b64_fexp; lia).
  set (E := b64_fexp (d1 - d2)) in *.
  assert (HE : (E <= -53)%Z) by (unfold E, b64_fexp; lia).
  destruct (0 - E)%Z as [|s|s] eqn:Hs; try lia.
  change IntDef.Z.shiftl with Z.shiftl in Hd. change IntDef.Z.div_eucl with Z.div_eucl in Hd.
  rewrite Z.shiftl_mul_pow2 in Hd by lia.
  set (m' := (Zpos a * 2 ^ Zpos s)%Z) in *.
  destruct (Z.div_eucl m' (Zpos b)) as [q0 r0] eqn:Hqr.
  injection Hd as Eq Ee El. subst q e l.
  assert (Hq0 : q0 = (m' / Zpos b)%Z) by (unfold Z.div; rewrite Hqr; reflexivity).
  assert (Hr0 : r0 = (m' mod Zpos b)%Z) by (unfold Z.modulo; rewrite Hqr; reflexivity).
  pose proof (Z.div_mod m' (Zpos b) ltac:(lia)) as Hdm.
  pose proof (Z.mod_pos_bound m' (Zpos b) ltac:(lia)) as Hmb.
  rewrite <- Hq0, <- Hr0 in Hdm. rewrite <- Hr0 in Hmb.
  assert (Hm0 : (0 <= m')%Z) by (unfold m'; apply Z.mul_nonneg_nonneg; [lia | apply Z.pow_nonneg; lia]).
  assert (Hq0nn : (0 <= q0)%Z) by (rewrite Hq0; apply Z.div_pos; lia).
  (* the scaled quotient *)
  assert (Hy : inject_Z (Zpos a) / inject_Z (Zpos b) * pow2 (- E)
               == inject_Z q0 + inject_Z r0 / inject_Z (Zpos b)).
  { replace (- E)%Z with (0 - E)%Z by lia. rewrite (pow2_Z (0 - E)) by lia.
    assert (Hm : inject_Z (Zpos a) * inject_Z (2 ^ (0 - E)) == inject_Z m').
    { rewrite <- inject_Z_mult. unfold m'. rewrite Hs. reflexivity. }
    assert (HB : ~ inject_Z (Zpos b) == 0).
    { change 0 with (inject_Z 0). rewrite inject_Z_injective. lia. }
    setoid_replace (inject_Z (Zpos a) / inject_Z (Zpos b) * inject_Z (2 ^ (0 - E)))
      with (inject_Z m' / inject_Z (Zpos b))
      by (rewrite <- Hm; field; exact HB).
    rewrite Hdm, inject_Z_plus, inject_Z_mult. field. exact HB. }
  split; [exact Hq0nn|]. split.
  { apply (describes_proper (inject_Z q0 + inject_Z r0 / inject_Z (Zpos b))); [symmetry; exact Hy|].
    apply describes_div; lia. }
  (* in the normal range the quotient has 53 digits *)
  assert (Hnorm : E = (d1 - d2 - 53)%Z -> (2 ^ 52 <= q0)%Z).
  { intros HE'. rewrite Hq0. apply Z.div_le_lower_bound; [lia|].
    assert (Zpos s = 53 + d2 - d1)%Z as Es by lia.
    unfold m'. rewrite Es.
    assert (2 ^ (53 + d2 - d1) * 2 ^ (d1 - 1) = 2 ^ 52 * 2 ^ d2)%Z.
    { rewrite <- !Z.pow_add_r by lia. f_equal. lia. }
    assert (2 ^ (d1 - 1) * 2 ^ (53 + d2 - d1) <= Zpos a * 2 ^ (53 + d2 - d1))%Z
      by (apply Z.mul_le_mono_nonneg_r; [apply Z.pow_nonneg; lia | exact A1]).
    assert (Zpos b * 2 ^ 52 <= 2 ^ d2 * 2 ^ 52)%Z
      by (apply Z.mul_le_mono_nonneg_r; [apply Z.pow_nonneg; lia | lia]).
    lia. }
  split.
  - intros Z0. destruct (Z.eq_dec E (d1 - d2 - 53)) as [E1|E1].
    + specialize (Hnorm E1). lia.
    + unfold E, b64_fexp in *. lia.
  - intros Qp. destruct q0 as [|qp|qp]; try lia. simpl Zdigits2.
    destruct (Z.eq_dec E (d1 - d2 - 53)) as [E1|E1].
    + specialize (Hnorm E1). pose proof (digits_ge qp 52 ltac:(lia) Hnorm).
      unfold b64_fexp in *. lia.
    + unfold E, b64_fexp in *. lia.
Qed.

End RoundingFacts.

(** ** binary64 values in [[0, 1]]: comparisons, [1.0 - p] and products. *)

Section FloatFacts.
Local Open Scope Q_scope.

Lemma SFleb_nonneg x y :
  valid_binary x = true -> valid_binary y = true -> fnonneg x = true -> fnonneg y = true ->
  SFleb x y = true <-> sval x <= sval y.
Proof.
  intros Vx Vy Nx Ny. unfold SFleb. rewrite SFcompare_nonneg by assumption.
  destruct (Qcompare_spec (sval x) (sval y)) as [C|C|C]; split; intros Hc;
    try reflexivity; try discriminate; lra.
Qed.

Lemma SFltb_nonneg x y :
  valid_binary x = true -> valid_binary y = true -> fnonneg x = true -> fnonneg y = true ->
  SFltb x y = true <-> sval x < sval y.
Proof.
  intros Vx Vy Nx Ny. unfold SFltb. rewrite SFcompare_nonneg by assumption.
  destruct (Qcompare_spec (sval x) (sval y)) as [C|C|C]; split; intros Hc;
    try reflexivity; try discriminate; lra.
Qed.

Lemma Prim2SF_zero : Prim2SF 0%float = S754_zero false.
Proof. reflexivity. Qed.

Lemma Prim2SF_one : Prim2SF 1%float = one_sf.
Proof. reflexivity. Qed.

Lemma in_unit_iff (f : float) :
  Float64.in_unit f = true <-> fnonneg (Prim2SF f) = true /\ sval (Prim2SF f) <= 1.
Proof.
  unfold Float64.in_unit. rewrite !leb_spec, Prim2SF_zero, Prim2SF_one, andb_true_iff.
  pose proof (Prim2SF_valid f) as V. revert V.
  destruct (Prim2SF f) as [s|s| |[] m e]; intros V.
  - cbn. split; [intros _; split; [reflexivity | lra] | intros _; split; reflexivity].
  - destruct s; cbn; split; intros [A B]; discriminate.
  - cbn. split; intros [A B]; discriminate.
  - cbn. split; intros [A B]; discriminate.
  - rewrite (SFleb_nonneg (S754_zero false) _ eq_refl V eq_refl eq_refl),
            (SFleb_nonneg _ one_sf V eq_refl eq_refl eq_refl), sval_one.
    cbn [sval fnonneg]. split; intros [A B]; split; try reflexivity; try exact B.
    apply Qlt_le_weak, sval_pos_finite.
Qed.

Lemma in_unit_bounds (f : float) :
  Float64.in_unit f = true -> 0 <= sval (Prim2SF f) /\ sval (Prim2SF f) <= 1.
Proof.
  intros H. apply in_unit_iff in H as [N L]. split; [apply sval_nonneg, N | exact L].
Qed.

Lemma leb_of_sval (x y : float) :
  Float64.in_unit x = true -> Float64.in_unit y = true ->
  sval (Prim2SF x) <= sval (Prim2SF y) -> (x <=? y)%float = true.
Proof.
  intros Hx Hy L. apply in_unit_iff in Hx as [Nx _], Hy as [Ny _].
  rewrite leb_spec. apply SFleb_nonneg; try apply Prim2SF_valid; assumption.
Qed.

Lemma sval_of_ltb (x y : float) :
  Float64.in_unit x = true -> Float64.in_unit y = true ->
  (x <? y)%float = true -> sval (Prim2SF x) < sval (Prim2SF y).
Proof.
  intros Hx Hy L. apply in_unit_iff in Hx as [Nx _], Hy as [Ny _].
  rewrite ltb_spec in L. apply SFltb_nonneg in L; try apply Prim2SF_valid; assumption.
Qed.

(** [1.0 - p] for [p] in [[0, 1]] lies in [[0, 1]] and is the rounded
    [1 - p]. *)
Lemma sub_one_in_unit (p : float) :
  Float64.in_unit p = true ->
  Float64.in_unit (1 - p)%float = true /\
  rnd_rel (1 - sval (Prim2SF p)) (sval (Prim2SF (1 - p)%float)).
Proof.
  intros Hp. pose proof (in_unit_bounds p Hp) as [B0 B1].
  apply in_unit_iff in Hp as [N L].
  pose proof (SFsub_one_unit (Prim2SF p) (Prim2SF_valid p) N L) as [_ [N' R]].
  assert (E : Prim2SF (1 - p)%float = SFsub prec emax one_sf (Prim2SF p))
    by (rewrite sub_spec, Prim2SF_one; reflexivity).
  rewrite E. split; [|exact R].
  apply in_unit_iff. rewrite E. split; [exact N'|].
  refine (proj2 (rnd_rel_unit _ _ _ _ R)); lra.
Qed.

(** [a * b] for [a], [b] in [[0, 1]] lies in [[0, 1]] and is the rounded
    product. *)
Lemma mul_in_unit (a b : float) :
  Float64.in_unit a = true -> Float64.in_unit b = true ->
  Float64.in_unit (a * b)%float = true /\
  rnd_rel (sval (Prim2SF a) * sval (Prim2SF b)) (sval (Prim2SF (a * b)%float)).
Proof.
  intros Ha Hb.
  pose proof (in_unit_bounds a Ha) as [A0 A1]. pose proof (in_unit_bounds b Hb) as [B0 B1].
  apply in_unit_iff in Ha as [Na _], Hb as [Nb _].
  pose proof (SFmul_unit _ _ (Prim2SF_valid a) (Prim2SF_valid b) Na Nb A1 B1) as [_ [N' R]].
  assert (E : Prim2SF (a * b)%float = SFmul prec emax (Prim2SF a) (Prim2SF b))
    by (rewrite mul_spec; reflexivity).
  rewrite E. split; [|exact R].
  apply in_unit_iff. rewrite E. split; [exact N'|].
  refine (proj2 (rnd_rel_unit _ _ _ _ R)); [apply Qmult_le_0_compat | apply Qmult_unit];
    assumption.
Qed.

(** The loop of [analytical_reliability] keeps its accumulator in [[0, 1]]. *)
Lemma analytical_loop_in_unit (l : list float) (r : float) :
  forallb Float64.in_unit l = true -> Float64.in_unit r = true ->
  Float64.in_unit (analytical_loop l r) = true.
Proof.
  revert r; induction l as [|p l IH]; intros r Hl Hr; cbn [analytical_loop forallb] in *;
    [exact Hr|].
  apply andb_true_iff in Hl as [Hp Hl]. apply IH; [exact Hl|].
  apply mul_in_unit; [exact Hr | apply sub_one_in_unit, Hp].
Qed.

(** ... and is monotone in its accumulator. *)
Lemma analytical_loop_mono (l : list float) (r1 r2 : float) :
  forallb Float64.in_unit l = true ->
  Float64.in_unit r1 = true -> Float64.in_unit r2 = true ->
  sval (Prim2SF r1) <= sval (Prim2SF r2) ->
  sval (Prim2SF (analytical_loop l r1)) <= sval (Prim2SF (analytical_loop l r2)).
Proof.
  revert r1 r2; induction l as [|p l IH]; intros r1 r2 Hl H1 H2 H12;
    cbn [analytical_loop forallb] in *; [exact H12|].
  apply andb_true_iff in Hl as [Hp Hl].
  destruct (sub_one_in_unit p Hp) as [Hw _].
  destruct (mul_in_unit r1 _ H1 Hw) as [M1 R1], (mul_in_unit r2 _ H2 Hw) as [M2 R2].
  apply IH; try assumption.
  pose proof (in_unit_bounds r1 H1) as [A0 A1]. pose proof (in_unit_bounds _ Hw) as [W0 W1].
  refine (rnd_rel_mono _ _ _ _ _ _ R1 R2); nra.
Qed.

(** [k / n] for [0 <= k <= n] and [0 < n] is a float in [[0, 1]]. *)
Lemma int_truediv_in_unit (k n : Z) :
  (0 <= k <= n)%Z -> (0 < n)%Z ->
  exists r, Float64.int_truediv k n = Ok r /\ Float64.in_unit r = true.
Proof.
  intros Hk Hn.
  destruct (Z.eq_dec k n) as [->|Hkn].
  { exists 1%float. rewrite int_truediv_diag by exact Hn. split; reflexivity. }
  destruct n as [|b|b]; try lia.
  destruct k as [|a|a]; try lia.
  { exists 0%float. split; reflexivity. }
  unfold Float64.int_truediv.
  change (Z.abs (Zpos a)) with (Zpos a). change (Z.abs (Zpos b)) with (Zpos b).
  change (xorb (Zpos a <? 0)%Z (Zpos b <? 0)%Z) with false.
  cbv beta iota zeta.
  destruct (SFdiv_core_binary prec emax (Zpos a) 0 (Zpos b) 0) as [[q e] l] eqn:Hd.
  destruct (div_core_spec a b q e l ltac:(lia) Hd) as [Hq [Hdesc [Hz Hexp]]].
  destruct (Z.eq_dec q 0) as [->|Hq0].
  - rewrite (Hz eq_refl).
    destruct l as [|[| |]];
      [exists 0%float | exists 0%float | exists 0%float
      | exists (SF2Prim (S754_finite false 1 (-1074)))];
      split; vm_compute; reflexivity.
  - set (y := inject_Z (Zpos a) / inject_Z (Zpos b) * pow2 (- e)) in *.
    assert (HY : y * pow2 e == inject_Z (Zpos a) / inject_Z (Zpos b)).
    { unfold y. rewrite <- Qmult_assoc, pow2_inv. apply Qmult_1_r. }
    assert (HB : 0 < inject_Z (Zpos b))
      by (change 0 with (inject_Z 0); apply (proj1 (inject_Z_lt _ _)); lia).
    assert (HY1 : y * pow2 e <= 1).
    { rewrite HY. apply Qle_shift_div_r; [exact HB|]. rewrite Qmult_1_l.
      apply (proj1 (inject_Z_le _ _)). lia. }
    assert (HY0 : 0 <= y * pow2 e).
    { rewrite HY. apply Qle_shift_div_l; [exact HB|]. rewrite Qmult_0_l.
      apply inject_Z_nonneg. lia. }
    pose proof (round_aux_val q e l y ltac:(lia) Hdesc (Hexp ltac:(lia)) HY1) as R.
    cbv zeta in R. destruct R as [V [N Rr]]. revert V N Rr.
    destruct (binary_round_aux prec emax false q e l) as [s|s| |s m e'];
      intros V N Rr; try (cbn in N; discriminate N);
      (eexists; split; [reflexivity|]);
      apply in_unit_iff; rewrite Prim2SF_SF2Prim by exact V; (split; [exact N|]);
      exact (proj2 (rnd_rel_unit _ _ HY0 HY1 Rr)).
Qed.

End FloatFacts.

(** ** The claims, on IEEE-754 binary64. *)

(** C1: [analytical_reliability] returns the product over all subsystems of
    [1 - failure_probability], i.e. [(1 - p1) * (1 - p2) * ... * (1 - pn)]
    multiplied left to right from the empty product [1.0]. *)
Theorem analytical_reliability_is_product (failure_probs : list float) :
  analytical_reliability failure_probs = prod (map works failure_probs).
Proof. apply analytical_reliability_prod. Qed.

(** C2: for a positive [n_samples] and any sequence of draws,
    [monte_carlo_reliability] runs [n_samples] trials one after the other,
    each testing the subsystems in order with one fresh draw each and stopping
    at the first draw strictly below the subsystem's failure probability
    ([trial_spec]); it returns [successes / n_samples], Python's true
    division of the number of successful trials by [n_samples], and leaves
    the generator after the last draw consumed. *)
Theorem monte_carlo_reliability_trials (rng : nat -> float)
  (failure_probs : list float) (n_samples : Z) (pos : nat) :
  (0 < n_samples)%Z ->
  monte_carlo_reliability rng failure_probs n_samples pos =
  (Float64.int_truediv
     (Z.of_nat (fst (trials_spec rng failure_probs (Z.to_nat n_samples) pos)))
     n_samples,
   snd (trials_spec rng failure_probs (Z.to_nat n_samples) pos)).
Proof.
  intros Hn. rewrite monte_carlo_reliability_spec.
  unfold true_div. destruct (Z.eqb_spec n_samples 0); [lia|reflexivity].
Qed.

(** C3 (as stated, refuted): not every non-positive [n_samples] raises an
    error; with [n_samples = -1] no trial runs and [0 / -1] returns [-0.0]. *)
Lemma monte_carlo_reliability_negative_samples_returns :
  ~ (forall (rng : nat -> float) (failure_probs : list float) (n_samples : Z)
       (pos : nat),
       (n_samples <= 0)%Z ->
       exists e, fst (monte_carlo_reliability rng failure_probs n_samples pos)
                 = Raise e).
Proof.
  intros Hall.
  destruct (Hall (fun _ => 0.5%float) [0.125%float] (-1)%Z 0 ltac:(lia)) as [e He].
  vm_compute in He. discriminate.
Qed.

(** C3 (amended): with [n_samples <= 0] no trial runs and no draw is taken;
    [n_samples = 0] raises [ZeroDivisionError], and a negative [n_samples]
    returns [0 / n_samples = -0.0] without an error. *)
Theorem monte_carlo_reliability_nonpositive_samples (rng : nat -> float)
  (failure_probs : list float) (n_samples : Z) (pos : nat) :
  (n_samples <= 0)%Z ->
  monte_carlo_reliability rng failure_probs n_samples pos =
  (if Z.eqb n_samples 0 then Raise ZeroDivisionError else Ok (-0)%float, pos).
Proof.
  intros Hn. rewrite monte_carlo_reliability_nonpos by exact Hn.
  unfold true_div. destruct (Z.eqb_spec n_samples 0); [reflexivity|].
  destruct n_samples as [|m|m]; [lia|lia|reflexivity].
Qed.

(** C7: for no subsystems, [analytical_reliability] returns exactly [1.0]. *)
Theorem analytical_reliability_nil :
  analytical_reliability (@nil float) = 1%float.
Proof. reflexivity. Qed.

(** C8: for no subsystems and a positive [n_samples], every trial succeeds
    without drawing, and [monte_carlo_reliability] returns exactly [1.0],
    whatever the generator, which it leaves untouched. *)
Theorem monte_carlo_reliability_nil (rng : nat -> float) (n_samples : Z)
  (pos : nat) :
  (0 < n_samples)%Z ->
  monte_carlo_reliability rng [] n_samples pos = (Ok 1%float, pos).
Proof.
  intros Hn. rewrite monte_carlo_reliability_spec, trials_spec_nil; simpl.
  unfold true_div. destruct (Z.eqb_spec n_samples 0); [lia|].
  rewrite Z2Nat.id by lia. simpl. rewrite int_truediv_diag by exact Hn.
  reflexivity.
Qed.

(** C9: with a failure probability outside [[0, 1]] the code does not
    validate and raises nothing (its result is a float): it returns the same
    product of the [1 - p]. *)
Theorem analytical_reliability_out_of_range (failure_probs : list float)
  (p : float) :
  In p failure_probs ->
  (p <? 0)%float || (1 <? p)%float = true ->
  analytical_reliability failure_probs = prod (map works failure_probs).
Proof. intros _ _. apply analytical_reliability_prod. Qed.

(** C10: [analytical_reliability] is deterministic: two calls in a row with
    the same input return bit-identical floats, and neither touches the
    generator state. *)
Theorem analytical_reliability_deterministic (failure_probs : list float)
  (pos : nat) :
  let '(r1, pos1) := analytical_reliability_call failure_probs pos in
  let '(r2, pos2) := analytical_reliability_call failure_probs pos1 in
  r1 = r2 /\ pos1 = pos /\ pos2 = pos.
Proof. simpl. auto. Qed.

(** ** The claims on the arithmetic of the results. *)

(** C4 (as stated, refuted on binary64): raising one failure probability
    within [[0, 1]] need not strictly lower [analytical_reliability]: with
    another subsystem at failure probability [1.0] the result stays [0.0]
    ([[1.0; 0.0]] against [[1.0; 0.5]]), and a rise from [0.0] to [2^-60]
    is lost to rounding ([1.0 - 2^-60 = 1.0]). *)
Lemma analytical_reliability_not_strictly_decreasing :
  ~ (forall (l1 l2 : list float) (p q : float),
       forallb Float64.in_unit (l1 ++ p :: l2) = true ->
       Float64.in_unit q = true ->
       (p <? q)%float = true ->
       (analytical_reliability (l1 ++ q :: l2)
          <? analytical_reliability (l1 ++ p :: l2))%float = true)
  /\ analytical_reliability [0x1p-60%float] = analytical_reliability [0%float].
Proof.
  split.
  - intros Hall.
    specialize (Hall [1%float] [] 0%float 0.5%float eq_refl eq_refl eq_refl).
    vm_compute in Hall. discriminate.
  - vm_compute. reflexivity.
Qed.

(** C4 (amended): with every failure probability a float in [[0, 1]],
    raising the one at a single position (the others fixed) to a strictly
    larger float in [[0, 1]] never increases [analytical_reliability],
    computed in binary64 with its roundings; it may stay equal. *)
Theorem analytical_reliability_antitone (l1 l2 : list float) (p q : float) :
  forallb Float64.in_unit (l1 ++ p :: l2) = true ->
  Float64.in_unit q = true ->
  (p <? q)%float = true ->
  (analytical_reliability (l1 ++ q :: l2)
     <=? analytical_reliability (l1 ++ p :: l2))%float = true.
Proof.
  intros Hall Hq Hpq.
  rewrite forallb_app in Hall. apply andb_true_iff in Hall as [H1 H2].
  cbn [forallb] in H2. apply andb_true_iff in H2 as [Hp H2].
  unfold analytical_reliability. rewrite !analytical_loop_app. cbn [analytical_loop].
  set (A := analytical_loop l1 num_one).
  assert (HA : Float64.in_unit A = true)
    by (apply analytical_loop_in_unit; [exact H1 | reflexivity]).
  change (@num_mul float _) with PrimFloat.mul. change (@num_sub float _) with PrimFloat.sub.
  change (@num_one float _) with 1%float.
  destruct (sub_one_in_unit q Hq) as [Wq Rq], (sub_one_in_unit p Hp) as [Wp Rp].
  pose proof (sval_of_ltb p q Hp Hq Hpq) as Lpq.
  pose proof (in_unit_bounds q Hq) as [Q0 Q1].
  assert (Lw : (sval (Prim2SF (1 - q)%float) <= sval (Prim2SF (1 - p)%float))%Q)
    by (refine (rnd_rel_mono _ _ _ _ _ _ Rq Rp); lra).
  destruct (mul_in_unit A _ HA Wq) as [Mq RMq], (mul_in_unit A _ HA Wp) as [Mp RMp].
  pose proof (in_unit_bounds A HA) as [A0 A1].
  pose proof (in_unit_bounds _ Wq) as [W0 W1].
  assert (Lm : (sval (Prim2SF (A * (1 - q))%float) <= sval (Prim2SF (A * (1 - p))%float))%Q)
    by (refine (rnd_rel_mono _ _ _ _ _ _ RMq RMp); nra).
  apply leb_of_sval; [apply analytical_loop_in_unit; assumption
                     | apply analytical_loop_in_unit; assumption |].
  apply analytical_loop_mono; assumption.
Qed.

(** C5: with every failure probability a float in [[0, 1]],
    [analytical_reliability] returns a float in [[0, 1]]. *)
Theorem analytical_reliability_in_unit (failure_probs : list float) :
  forallb Float64.in_unit failure_probs = true ->
  Float64.in_unit (analytical_reliability failure_probs) = true.
Proof. intros H. apply analytical_loop_in_unit; [exact H | reflexivity]. Qed.

(** C6: for a positive [n_samples] and draws in [[0, 1)],
    [monte_carlo_reliability] returns a float in [[0, 1]]: CPython's rounded
    [successes / n_samples] with [0 <= successes <= n_samples]. *)
Theorem monte_carlo_reliability_in_unit (rng : nat -> float)
  (failure_probs : list float) (n_samples : Z) (pos : nat) :
  (forall k, (0 <=? rng k)%float && (rng k <? 1)%float = true) ->
  (0 < n_samples)%Z ->
  exists r, fst (monte_carlo_reliability rng failure_probs n_samples pos) = Ok r
            /\ Float64.in_unit r = true.
Proof.
  intros _ Hn. rewrite monte_carlo_reliability_spec. cbn [fst].
  pose proof (trials_spec_le rng failure_probs (Z.to_nat n_samples) pos) as Hle.
  unfold true_div. destruct (Z.eqb_spec n_samples 0); [lia|].
  apply int_truediv_in_unit; lia.
Qed.

(** ** Witnesses: the hypotheses of the theorems above hold at concrete inputs. *)

Lemma monte_carlo_reliability_trials_witness :
  (0 < 4)%Z /\
  monte_carlo_reliability (fun k => if Nat.even k then 0.75%float else 0.125%float)
    [0.25%float; 0.5%float] 4 0 =
  (Float64.int_truediv
     (Z.of_nat (fst (trials_spec (fun k => if Nat.even k then 0.75%float else 0.125%float)
                       [0.25%float; 0.5%float] (Z.to_nat 4) 0))) 4,
   snd (trials_spec (fun k => if Nat.even k then 0.75%float else 0.125%float)
          [0.25%float; 0.5%float] (Z.to_nat 4) 0)).
Proof. split; [lia | apply monte_carlo_reliability_trials; lia]. Defined.

Lemma monte_carlo_reliability_nonpositive_samples_witness :
  (-3 <= 0)%Z /\
  monte_carlo_reliability (fun _ => 0.5%float) [0.25%float] (-3) 7 =
  (if Z.eqb (-3) 0 then Raise ZeroDivisionError else Ok (-0)%float, 7).
Proof. split; [lia | apply monte_carlo_reliability_nonpositive_samples; lia]. Defined.

Lemma monte_carlo_reliability_nil_witness :
  (0 < 3)%Z /\ monte_carlo_reliability (fun _ => 0.5%float) [] 3 2 = (Ok 1%float, 2).
Proof. split; [lia | apply monte_carlo_reliability_nil; lia]. Defined.

Lemma analytical_reliability_out_of_range_witness :
  In 2%float [2%float] /\ (2 <? 0)%float || (1 <? 2)%float = true /\
  analytical_reliability [2%float] = prod (map works [2%float]) /\
  analytical_reliability [2%float] = (-1)%float.
Proof.
  split; [left; reflexivity|]. split; [reflexivity|]. split.
  - apply (analytical_reliability_out_of_range [2%float] 2%float);
      [left; reflexivity | reflexivity].
  - vm_compute. reflexivity.
Defined.

Lemma analytical_reliability_antitone_witness :
  forallb Float64.in_unit ([0.5%float] ++ 0.25%float :: [0.25%float]) = true /\
  Float64.in_unit 0.75%float = true /\
  (0.25 <? 0.75)%float = true /\
  (analytical_reliability ([0.5%float] ++ 0.75%float :: [0.25%float])
     <=? analytical_reliability ([0.5%float] ++ 0.25%float :: [0.25%float]))%float = true.
Proof.
  assert (Hl : forallb Float64.in_unit ([0.5%float] ++ 0.25%float :: [0.25%float]) = true)
    by (vm_compute; reflexivity).
  assert (Hq : Float64.in_unit 0.75%float = true) by (vm_compute; reflexivity).
  assert (Hpq : (0.25 <? 0.75)%float = true) by (vm_compute; reflexivity).
  split; [exact Hl|]. split; [exact Hq|]. split; [exact Hpq|].
  apply analytical_reliability_antitone; assumption.
Defined.

Lemma analytical_reliability_in_unit_witness :
  forallb Float64.in_unit [0.5%float; 0.25%float] = true /\
  Float64.in_unit (analytical_reliability [0.5%float; 0.25%float]) = true.
Proof.
  assert (Hl : forallb Float64.in_unit [0.5%float; 0.25%float] = true)
    by (vm_compute; reflexivity).
  split; [exact Hl | apply analytical_reliability_in_unit; exact Hl].
Defined.

Lemma monte_carlo_reliability_in_unit_witness :
  (forall k : nat, (0 <=? (fun _ : nat => 0.5%float) k)%float
                   && ((fun _ : nat => 0.5%float) k <? 1)%float = true) /\
  (0 < 2)%Z /\
  exists r, fst (monte_carlo_reliability (fun _ => 0.5%float) [0.25%float] 2 0) = Ok r
            /\ Float64.in_unit r = true.
Proof.
  assert (Hr : forall k : nat, (0 <=? (fun _ : nat => 0.5%float) k)%float
                               && ((fun _ : nat => 0.5%float) k <? 1)%float = true)
    by (intros k; vm_compute; reflexivity).
  split; [exact Hr|]. split; [lia|].
  apply monte_carlo_reliability_in_unit; [exact Hr | lia].
Defined.

(** ** Further properties of the code. *)

Section MoreGeneric.
Context {F : Type} `{Num F}.
Variable rng : nat -> F.

(** Testing the subsystems [l1 ++ l2] is testing [l1], then, if no subsystem
    of [l1] failed, testing [l2] with the draws that follow. *)
Lemma check_subsystems_app (l1 l2 : list F) (pos : nat) :
  check_subsystems rng (l1 ++ l2) pos =
  let '(ok, pos') := check_subsystems rng l1 pos in
  if ok then check_subsystems rng l2 pos' else (false, pos').
Proof.
  revert pos; induction l1 as [|p l1 IH]; intros pos; simpl; [reflexivity|].
  destruct (num_ltb (rng pos) p); [reflexivity|apply IH].
Qed.

(** A trial that succeeds takes exactly one draw per subsystem; a trial that
    fails takes at least one draw and at most one per subsystem. *)
Lemma check_subsystems_draws (ps : list F) (pos : nat) :
  let '(ok, pos') := check_subsystems rng ps pos in
  (ok = true -> pos' = pos + length ps) /\
  (ok = false -> pos < pos' <= pos + length ps).
Proof.
  revert pos; induction ps as [|p ps IH]; intros pos; simpl.
  - split; [lia | discriminate].
  - destruct (num_ltb (rng pos) p); [split; [discriminate | lia]|].
    specialize (IH (S pos)). destruct (check_subsystems rng ps (S pos)) as [ok pos'].
    destruct IH as [IH1 IH2]; split; intros Hok; [specialize (IH1 Hok) | specialize (IH2 Hok)]; lia.
Qed.

Lemma run_trials_draws (ps : list F) (i : nat) (s : Z) (pos : nat) :
  let pos' := snd (run_trials rng ps i s pos) in
  pos <= pos' <= pos + i * length ps /\ (ps <> [] -> pos + i <= pos').
Proof.
  revert s pos; induction i as [|i IH]; intros s pos; simpl; [lia|].
  pose proof (check_subsystems_draws ps pos) as Hd.
  destruct (check_subsystems rng ps pos) as [ok pos1].
  specialize (IH (if ok then (s + 1)%Z else s) pos1). simpl in IH.
  assert (pos <= pos1 <= pos + length ps /\ (ps <> [] -> pos < pos1)) as Hb.
  { destruct ok; destruct Hd as [Hd1 Hd2];
      [specialize (Hd1 eq_refl) | specialize (Hd2 eq_refl)];
      (split; [lia|]); intros Hne; [|lia].
    destruct ps; [contradiction|simpl in Hd1; lia]. }
  destruct IH as [IH1 IH2]. split; [nia|].
  intros Hne; specialize (IH2 Hne); destruct Hb as [_ Hb]; specialize (Hb Hne); lia.
Qed.

(** When no draw is below any failure probability, every trial succeeds. *)
Lemma check_subsystems_all_pass (ps : list F) (pos : nat) :
  (forall k p, In p ps -> num_ltb (rng k) p = false) ->
  check_subsystems rng ps pos = (true, pos + length ps).
Proof.
  revert pos; induction ps as [|p ps IH]; intros pos Hp; simpl; [f_equal; lia|].
  rewrite (Hp pos p (or_introl eq_refl)).
  rewrite IH by (intros k q Hq; apply Hp; right; exact Hq). f_equal; lia.
Qed.

Lemma trials_spec_all_pass (ps : list F) (i pos : nat) :
  (forall k p, In p ps -> num_ltb (rng k) p = false) ->
  trials_spec rng ps i pos = (i, pos + i * length ps).
Proof.
  intros Hp. revert pos; induction i as [|i IH]; intros pos; simpl; [f_equal; lia|].
  rewrite <- check_subsystems_spec, check_subsystems_all_pass by exact Hp.
  rewrite IH. f_equal; lia.
Qed.

(** When some subsystem's failure probability is above every draw, every
    trial fails. *)
Lemma check_subsystems_fails (ps : list F) (pos : nat) (p : F) :
  In p ps -> (forall k, num_ltb (rng k) p = true) ->
  fst (check_subsystems rng ps pos) = false.
Proof.
  revert pos; induction ps as [|q ps IH]; intros pos Hin Hp; [destruct Hin|].
  simpl. destruct (num_ltb (rng pos) q) eqn:Hq; [reflexivity|].
  destruct Hin as [<-|Hin]; [rewrite Hp in Hq; discriminate|].
  apply IH; assumption.
Qed.

Lemma trials_spec_all_fail (ps : list F) (i pos : nat) (p : F) :
  In p ps -> (forall k, num_ltb (rng k) p = true) ->
  fst (trials_spec rng ps i pos) = 0.
Proof.
  intros Hin Hp. revert pos; induction i as [|i IH]; intros pos; simpl; [reflexivity|].
  pose proof (check_subsystems_fails ps pos p Hin Hp) as Hf.
  rewrite check_subsystems_spec in Hf.
  destruct (trial_spec rng ps pos) as [ok pos1]; simpl in Hf; subst ok.
  specialize (IH pos1). destruct (trials_spec rng ps i pos1); simpl in *; lia.
Qed.

End MoreGeneric.

(** [d < 0.0] is false for a draw [d] with [0.0 <= d]. *)
Lemma ltb_zero_r (d : float) : (0 <=? d)%float = true -> (d <? 0)%float = false.
Proof.
  rewrite leb_spec, ltb_spec. change (Prim2SF 0) with (S754_zero false).
  destruct (Prim2SF d) as [[]|[]| |[] m e]; cbv; congruence.
Qed.

(** ** Properties beyond the spec's claims. *)

(** A trial of [monte_carlo_reliability] that succeeds takes exactly one
    draw per subsystem; one that fails takes between one draw and one per
    subsystem. *)
Theorem trial_draw_count (rng : nat -> float) (failure_probs : list float)
  (pos : nat) :
  let '(ok, pos') := check_subsystems rng failure_probs pos in
  (ok = true -> pos' = pos + length failure_probs) /\
  (ok = false -> pos < pos' <= pos + length failure_probs).
Proof. apply check_subsystems_draws. Qed.

(** [monte_carlo_reliability] takes at most [n_samples * len(failure_probs)]
    draws from the generator (none when [n_samples <= 0]). *)
Theorem monte_carlo_reliability_draws_at_most (rng : nat -> float)
  (failure_probs : list float) (n_samples : Z) (pos : nat) :
  pos <= snd (monte_carlo_reliability rng failure_probs n_samples pos)
      <= pos + Z.to_nat n_samples * length failure_probs.
Proof.
  unfold monte_carlo_reliability.
  pose proof (run_trials_draws rng failure_probs (Z.to_nat n_samples) 0 pos) as [Hb _].
  destruct (run_trials rng failure_probs (Z.to_nat n_samples) 0 pos); exact Hb.
Qed.

(** With at least one subsystem, [monte_carlo_reliability] takes at least
    one draw per trial, so at least [n_samples] draws. *)
Theorem monte_carlo_reliability_draws_at_least (rng : nat -> float)
  (failure_probs : list float) (n_samples : Z) (pos : nat) :
  failure_probs <> [] ->
  pos + Z.to_nat n_samples <= snd (monte_carlo_reliability rng failure_probs n_samples pos).
Proof.
  intros Hne. unfold monte_carlo_reliability.
  pose proof (run_trials_draws rng failure_probs (Z.to_nat n_samples) 0 pos) as [_ Hb].
  destruct (run_trials rng failure_probs (Z.to_nat n_samples) 0 pos); exact (Hb Hne).
Qed.

(** In binary64, subsystems that all have failure probability [0.0] give an
    analytical reliability of exactly [1.0], whatever their number. *)
Theorem analytical_reliability_all_zero (failure_probs : list float) :
  (forall p, In p failure_probs -> p = 0%float) ->
  analytical_reliability failure_probs = 1%float.
Proof.
  unfold analytical_reliability. induction failure_probs as [|p ps IH]; intros Hp;
    simpl; [reflexivity|].
  rewrite (Hp p (or_introl eq_refl)).
  change (1 * (1 - 0))%float with 1%float.
  apply IH. intros q Hq; apply Hp; right; exact Hq.
Qed.

(** In binary64, when every failure probability is [0.0] and every draw is
    at least [0.0], every trial succeeds: [monte_carlo_reliability] returns
    exactly [1.0] for a positive [n_samples], having taken one draw per
    subsystem and trial. *)
Theorem monte_carlo_reliability_all_zero (rng : nat -> float)
  (failure_probs : list float) (n_samples : Z) (pos : nat) :
  (forall p, In p failure_probs -> p = 0%float) ->
  (forall k, (0 <=? rng k)%float = true) ->
  (0 < n_samples)%Z ->
  monte_carlo_reliability rng failure_probs n_samples pos =
  (Ok 1%float, pos + Z.to_nat n_samples * length failure_probs).
Proof.
  intros Hp Hd Hn. rewrite monte_carlo_reliability_spec.
  rewrite trials_spec_all_pass.
  - simpl. unfold true_div. destruct (Z.eqb_spec n_samples 0); [lia|].
    rewrite Z2Nat.id by lia. simpl. rewrite int_truediv_diag by exact Hn.
    reflexivity.
  - intros k q Hq. rewrite (Hp q Hq). apply ltb_zero_r, Hd.
Qed.

(** In binary64, a subsystem with failure probability [1.0] makes every trial
    fail for draws below [1.0]: [monte_carlo_reliability] returns exactly
    [0.0] for a positive [n_samples]. *)
Theorem monte_carlo_reliability_certain_failure (rng : nat -> float)
  (failure_probs : list float) (n_samples : Z) (pos : nat) :
  In 1%float failure_probs ->
  (forall k, (rng k <? 1)%float = true) ->
  (0 < n_samples)%Z ->
  fst (monte_carlo_reliability rng failure_probs n_samples pos) = Ok 0%float.
Proof.
  intros Hin Hd Hn. rewrite monte_carlo_reliability_spec. simpl.
  rewrite (trials_spec_all_fail rng failure_probs _ pos 1%float Hin)
    by (intros k; exact (Hd k)).
  simpl.
  unfold true_div. destruct (Z.eqb_spec n_samples 0); [lia|].
  destruct n_samples; [lia|reflexivity|lia].
Qed.

Lemma monte_carlo_reliability_draws_at_least_witness :
  [0.25%float] <> [] /\
  0 + Z.to_nat 3 <= snd (monte_carlo_reliability (fun _ => 0.5%float) [0.25%float] 3 0).
Proof.
  split; [discriminate|].
  apply monte_carlo_reliability_draws_at_least; discriminate.
Defined.

Lemma analytical_reliability_all_zero_witness :
  (forall p, In p [0%float; 0%float; 0%float] -> p = 0%float) /\
  analytical_reliability [0%float; 0%float; 0%float] = 1%float.
Proof.
  assert (Hp : forall p, In p [0%float; 0%float; 0%float] -> p = 0%float)
    by (intros p [<-|[<-|[<-|[]]]]; reflexivity).
  split; [exact Hp | apply analytical_reliability_all_zero; exact Hp].
Defined.

Lemma monte_carlo_reliability_all_zero_witness :
  (forall p, In p [0%float; 0%float] -> p = 0%float) /\
  (forall k, (0 <=? (fun _ : nat => 0.5%float) k)%float = true) /\
  (0 < 3)%Z /\
  monte_carlo_reliability (fun _ => 0.5%float) [0%float; 0%float] 3 1 =
  (Ok 1%float, 1 + Z.to_nat 3 * length [0%float; 0%float]).
Proof.
  assert (Hp : forall p, In p [0%float; 0%float] -> p = 0%float)
    by (intros p [<-|[<-|[]]]; reflexivity).
  assert (Hd : forall k, (0 <=? (fun _ : nat => 0.5%float) k)%float = true)
    by (intros k; vm_compute; reflexivity).
  split; [exact Hp|]. split; [exact Hd|]. split; [lia|].
  apply monte_carlo_reliability_all_zero; [exact Hp | exact Hd | lia].
Defined.

Lemma monte_carlo_reliability_certain_failure_witness :
  In 1%float [0.25%float; 1%float] /\
  (forall k, ((fun _ : nat => 0.5%float) k <? 1)%float = true) /\
  (0 < 3)%Z /\
  fst (monte_carlo_reliability (fun _ => 0.5%float) [0.25%float; 1%float] 3 0)
  = Ok 0%float.
Proof.
  assert (Hin : In 1%float [0.25%float; 1%float]) by (right; left; reflexivity).
  assert (Hd : forall k, ((fun _ : nat => 0.5%float) k <? 1)%float = true)
    by (intros k; vm_compute; reflexivity).
  split; [exact Hin|]. split; [exact Hd|]. split; [lia|].
  apply monte_carlo_reliability_certain_failure; [exact Hin | exact Hd | lia].
Defined.
